(** * The POMOP music player (www/modules/music.js)

    A shallow embedding of the [MusicPlayer] class: the playlist, the play
    cursor, shuffle and repeat modes, persistence to [localStorage] and the
    events the player hands to its subscribers.

    The host environment (the [Audio] element, [localStorage], [FileReader],
    [JSON], [Date.now] and [Math.random]) is not part of the module; it is
    modelled by small records and by explicit inputs of the operations.
    JavaScript numbers are IEEE-754 doubles and are modelled by Rocq's
    primitive binary64 floats. *)

From Stdlib Require Import ZArith Floats Ascii String List Lia.
From stdpp Require Import base option list gmap strings.

Set Warnings "-register-all".
Local Open Scope string_scope.
Local Open Scope list_scope.
Local Open Scope Z_scope.

(** ** JavaScript values used by the module *)

Module JS.

Definition number := float.

(** [x === y] on numbers: IEEE equality ([NaN] differs from itself,
    [+0 === -0]). *)
Definition strict_eq (x y : number) : bool := PrimFloat.eqb x y.

(** [x > y] on numbers. *)
Definition gt (x y : number) : bool := PrimFloat.ltb y x.

(** [x <= y] on numbers. *)
Definition le (x y : number) : bool := PrimFloat.leb x y.

(** Truthiness of a string: every string but the empty one. *)
Definition truthy_string (s : string) : bool := negb (String.eqb s "").

(** Truthiness of a property that holds a string or is [undefined]. *)
Definition truthy (o : option string) : bool :=
  match o with
  | Some s => truthy_string s
  | None => false
  end.

(** Truthiness of a number: neither zero nor [NaN]. *)
Definition truthy_number (x : number) : bool :=
  PrimFloat.eqb x x && negb (PrimFloat.eqb x 0%float).

(** An integer as a number (exact below 2^53). *)
Definition of_Z (z : Z) : number :=
  if z <? 0 then PrimFloat.opp (PrimFloat.of_uint63 (Uint63.of_Z (- z)))
  else PrimFloat.of_uint63 (Uint63.of_Z z).

(** [Math.floor] of a finite number, as an integer; [None] for [NaN] and
    the infinities. *)
Definition floor (x : number) : option Z :=
  match Prim2SF x with
  | S754_zero _ => Some 0
  | S754_finite s m e => Some (Z.shiftl (if s then Z.neg m else Z.pos m) e)
  | _ => None
  end.

(** An [Error] object; only its message is used. *)
Record Error := { message : string }.

End JS.

(** ** Tracks and file handles *)

(** A playlist entry. [track_path] is set for tracks added from a file
    handle that carries a filesystem path, [track_data] for tracks read
    into a data URL; an absent property is [None]. *)
Record Track := {
  track_id : JS.number;
  track_name : string;
  track_fileName : string;
  track_path : option string;
  track_data : option string;
  track_duration : JS.number
}.

(** The part of a [File] handle that [addTrack] reads. *)
Record File := {
  file_name : string;
  file_path : option string
}.

(** [name.replace(/\.[^/.]+$/, '')]: drop a final extension, that is a dot
    followed by one or more characters other than [/] and [.] up to the end
    of the string. [ext_chars] counts the characters that follow the last
    dot when they form such an extension. *)
Definition is_ext_char (c : ascii) : bool :=
  negb (Ascii.eqb c "/"%char) && negb (Ascii.eqb c "."%char).

Fixpoint ext_chars (rev_name : list ascii) : option nat :=
  match rev_name with
  | [] => None
  | c :: rest =>
      if Ascii.eqb c "."%char then Some 0%nat
      else if is_ext_char c then S <$> ext_chars rest
      else None
  end.

Definition strip_extension (s : string) : string :=
  let cs := list_ascii_of_string s in
  match ext_chars (rev cs) with
  | Some (S n) => string_of_list_ascii (take (length cs - S (S n)) cs)
  | _ => s
  end.

(** The double [Date.now() + Math.random()]. *)
Definition make_id (now rnd : JS.number) : JS.number := PrimFloat.add now rnd.

(** ** JSON documents *)

Inductive json :=
  | JNull
  | JBool (b : bool)
  | JNum (x : JS.number)
  | JStr (s : string)
  | JArr (xs : list json)
  | JObj (props : list (string * json)).

(** Equality of documents; numbers are compared bit for bit. *)
Fixpoint json_eqb (a b : json) : bool :=
  match a, b with
  | JNull, JNull => true
  | JBool x, JBool y => Bool.eqb x y
  | JNum x, JNum y => PrimFloat.Leibniz.eqb x y
  | JStr x, JStr y => String.eqb x y
  | JArr xs, JArr ys =>
      (fix all2 (xs ys : list json) : bool :=
         match xs, ys with
         | [], [] => true
         | x :: xs', y :: ys' => json_eqb x y && all2 xs' ys'
         | _, _ => false
         end) xs ys
  | JObj xs, JObj ys =>
      (fix all2 (xs ys : list (string * json)) : bool :=
         match xs, ys with
         | [], [] => true
         | (k, x) :: xs', (k', y) :: ys' =>
             String.eqb k k' && json_eqb x y && all2 xs' ys'
         | _, _ => false
         end) xs ys
  | _, _ => false
  end.

(** The host's [JSON.stringify] and [JSON.parse] between documents and
    text; [JSON_parse] is [None] where the host throws a [SyntaxError]. *)
Class JSON := {
  JSON_stringify : json → string;
  JSON_parse : string → option json
}.

Definition opt_prop (k : string) (o : option string) : list (string * json) :=
  match o with
  | Some s => [(k, JStr s)]
  | None => []
  end.

(** A track object as [JSON.stringify] sees it: the properties of the
    object literal in [addTrack], in that order. *)
Definition track_to_json (t : Track) : json :=
  JObj ([("id", JNum (track_id t)); ("name", JStr (track_name t));
         ("fileName", JStr (track_fileName t))]
        ++ opt_prop "path" (track_path t)
        ++ opt_prop "data" (track_data t)
        ++ [("duration", JNum (track_duration t))]).

Definition playlist_to_json (pl : list Track) : json :=
  JArr (track_to_json <$> pl).

(** [t => ({ id: t.id, name: t.name, fileName: t.fileName })] *)
Definition metadata_of (t : Track) : json :=
  JObj [("id", JNum (track_id t)); ("name", JStr (track_name t));
        ("fileName", JStr (track_fileName t))].

Definition metadataOnly (pl : list Track) : json :=
  JArr (metadata_of <$> pl).

Fixpoint get_prop (k : string) (props : list (string * json)) : option json :=
  match props with
  | [] => None
  | (k', v) :: rest => if String.eqb k k' then Some v else get_prop k rest
  end.

(** A property that is a string or absent; [None] for any other value. *)
Definition string_or_absent (v : option json) : option (option string) :=
  match v with
  | None => Some None
  | Some (JStr s) => Some (Some s)
  | Some _ => None
  end.

(** Reading a parsed document back as a track. The model covers objects
    whose six properties have the types [addTrack] gives them; for any
    other document the result is [None]. *)
Definition track_of_json (j : json) : option Track :=
  match j with
  | JObj o =>
      match get_prop "id" o, get_prop "name" o, get_prop "fileName" o,
            get_prop "duration" o with
      | Some (JNum i), Some (JStr n), Some (JStr f), Some (JNum d) =>
          match string_or_absent (get_prop "path" o),
                string_or_absent (get_prop "data" o) with
          | Some p, Some dt =>
              Some {| track_id := i; track_name := n; track_fileName := f;
                      track_path := p; track_data := dt; track_duration := d |}
          | _, _ => None
          end
      | _, _, _, _ => None
      end
  | _ => None
  end.

Definition playlist_of_json (j : json) : option (list Track) :=
  match j with
  | JArr xs => mapM track_of_json xs
  | _ => None
  end.

(** ** The host's [localStorage] *)

(** A string-valued store with a capacity: [setItem] throws
    ([None]) when the store would grow beyond [quota] characters, and
    leaves the store as it was. *)
Record Storage := {
  items : gmap string string;
  quota : nat
}.

Definition usage (m : gmap string string) : nat :=
  map_fold (λ k v n, String.length k + String.length v + n)%nat 0%nat m.

Definition getItem (k : string) (st : Storage) : option string :=
  items st !! k.

Definition setItem (k v : string) (st : Storage) : option Storage :=
  let m := <[k := v]> (items st) in
  if (usage m <=? quota st)%nat then Some {| items := m; quota := quota st |}
  else None.

Definition PLAYLIST_KEY : string := "pomop-music-playlist".
Definition PLAYLIST_META_KEY : string := "pomop-music-playlist-meta".

(** ** The host's [Audio] element

    Only what the player reads and writes. The element's own changes
    (time advancing, metadata arriving, the play promise settling, the
    [play], [pause] and [ended] events) are inputs of the handlers below. *)
Record Audio := {
  audio_src : option string;
  audio_currentTime : JS.number;
  audio_duration : JS.number;
  audio_volume : JS.number;
  audio_paused : bool
}.

(** [new Audio()] *)
Definition Audio_new : Audio :=
  {| audio_src := None; audio_currentTime := 0%float;
     audio_duration := PrimFloat.nan; audio_volume := 1%float;
     audio_paused := true |}.

(** [audio.play()]: the element leaves the paused state; whether playback
    could start is told later by the promise the call returns. *)
Definition Audio_play (a : Audio) : Audio :=
  {| audio_src := audio_src a; audio_currentTime := audio_currentTime a;
     audio_duration := audio_duration a; audio_volume := audio_volume a;
     audio_paused := false |}.

(** [audio.pause()] *)
Definition Audio_pause (a : Audio) : Audio :=
  {| audio_src := audio_src a; audio_currentTime := audio_currentTime a;
     audio_duration := audio_duration a; audio_volume := audio_volume a;
     audio_paused := true |}.

(** [audio.currentTime = x], [audio.src = s] and [audio.volume = x] *)
Definition Audio_set_currentTime (x : JS.number) (a : Audio) : Audio :=
  {| audio_src := audio_src a; audio_currentTime := x;
     audio_duration := audio_duration a; audio_volume := audio_volume a;
     audio_paused := audio_paused a |}.

Definition Audio_set_src (s : option string) (a : Audio) : Audio :=
  {| audio_src := s; audio_currentTime := audio_currentTime a;
     audio_duration := audio_duration a; audio_volume := audio_volume a;
     audio_paused := audio_paused a |}.

Definition Audio_set_volume (x : JS.number) (a : Audio) : Audio :=
  {| audio_src := audio_src a; audio_currentTime := audio_currentTime a;
     audio_duration := audio_duration a; audio_volume := x;
     audio_paused := audio_paused a |}.

(** ** Player state and events *)

(** [this.repeat]: one of the strings ['none'], ['one'], ['all']. *)
Inductive RepeatMode := RepeatNone | RepeatOne | RepeatAll.

Global Instance RepeatMode_eq_dec : EqDecision RepeatMode.
Proof. solve_decision. Defined.

(** What [emit] hands to the subscribers: the event name with its payload. *)
Inductive Event :=
  | Etrackadded (track : Track)
  | Etrackremoved (trackId : JS.number)
  | Etrackchange (track : Track) (index : Z)
  | Eplay (trackIndex : Z)
  | Epause (trackIndex : Z)
  | Estop
  | Etimeupdate (currentTime duration progress : JS.number)
  | Etrackloaded (duration : JS.number)
  | Eshufflechange (shuffle : bool)
  | Erepeatchange (repeat : RepeatMode)
  | Eplaylistcleared
  | Eerror (message : string).

(** The fields of a [MusicPlayer], the [localStorage] it writes to, and
    the events it has emitted so far, oldest first. The subscribers of the
    application only redraw the page from [getPlaylist] and
    [getCurrentTrack]; notifying them is modelled by recording the event.
    [L] is what [this.playlist] holds: the list of tracks, or a reference
    to the array in the heap of [Module Heap]. *)
Record PlayerOf (L : Type) := {
  playlist : L;
  currentTrackIndex : Z;
  audio : Audio;
  isPlaying : bool;
  shuffle : bool;
  repeat : RepeatMode;
  localStorage : Storage;
  emitted : list Event
}.

Arguments playlist {L} _.
Arguments currentTrackIndex {L} _.
Arguments audio {L} _.
Arguments isPlaying {L} _.
Arguments shuffle {L} _.
Arguments repeat {L} _.
Arguments localStorage {L} _.
Arguments emitted {L} _.

(** The player with its list of tracks in hand. *)
Abbreviation Player := (PlayerOf (list Track)).

Definition with_playlist {L L'} (pl : L') (p : PlayerOf L) : PlayerOf L' :=
  {| playlist := pl; currentTrackIndex := currentTrackIndex p;
     audio := audio p; isPlaying := isPlaying p; shuffle := shuffle p;
     repeat := repeat p; localStorage := localStorage p;
     emitted := emitted p |}.

Definition with_currentTrackIndex {L} (i : Z) (p : PlayerOf L) : PlayerOf L :=
  {| playlist := playlist p; currentTrackIndex := i;
     audio := audio p; isPlaying := isPlaying p; shuffle := shuffle p;
     repeat := repeat p; localStorage := localStorage p;
     emitted := emitted p |}.

Definition with_audio {L} (a : Audio) (p : PlayerOf L) : PlayerOf L :=
  {| playlist := playlist p; currentTrackIndex := currentTrackIndex p;
     audio := a; isPlaying := isPlaying p; shuffle := shuffle p;
     repeat := repeat p; localStorage := localStorage p;
     emitted := emitted p |}.

Definition with_isPlaying {L} (b : bool) (p : PlayerOf L) : PlayerOf L :=
  {| playlist := playlist p; currentTrackIndex := currentTrackIndex p;
     audio := audio p; isPlaying := b; shuffle := shuffle p;
     repeat := repeat p; localStorage := localStorage p;
     emitted := emitted p |}.

Definition with_shuffle {L} (b : bool) (p : PlayerOf L) : PlayerOf L :=
  {| playlist := playlist p; currentTrackIndex := currentTrackIndex p;
     audio := audio p; isPlaying := isPlaying p; shuffle := b;
     repeat := repeat p; localStorage := localStorage p;
     emitted := emitted p |}.

Definition with_repeat {L} (r : RepeatMode) (p : PlayerOf L) : PlayerOf L :=
  {| playlist := playlist p; currentTrackIndex := currentTrackIndex p;
     audio := audio p; isPlaying := isPlaying p; shuffle := shuffle p;
     repeat := r; localStorage := localStorage p;
     emitted := emitted p |}.

Definition with_localStorage {L} (st : Storage) (p : PlayerOf L) : PlayerOf L :=
  {| playlist := playlist p; currentTrackIndex := currentTrackIndex p;
     audio := audio p; isPlaying := isPlaying p; shuffle := shuffle p;
     repeat := repeat p; localStorage := st;
     emitted := emitted p |}.

Definition with_emitted {L} (es : list Event) (p : PlayerOf L) : PlayerOf L :=
  {| playlist := playlist p; currentTrackIndex := currentTrackIndex p;
     audio := audio p; isPlaying := isPlaying p; shuffle := shuffle p;
     repeat := repeat p; localStorage := localStorage p;
     emitted := es |}.

(** ** Methods as state transformers *)

(** A method body: it reads and updates the player and returns a value. *)
Definition Method (A : Type) : Type := Player → A * Player.

Global Instance Method_ret : MRet Method := λ A x p, (x, p).
Global Instance Method_bind : MBind Method :=
  λ A B f m p, let '(a, p') := m p in f a p'.

Definition this {A} (field : Player → A) : Method A := λ p, (field p, p).
Definition update (f : Player → Player) : Method () := λ p, ((), f p).
Definition exec {A} (m : Method A) (p : Player) : Player := (m p).2.
Definition result {A} (m : Method A) (p : Player) : A := (m p).1.

Definition on_audio (f : Audio → Audio) : Method () :=
  update (λ p, with_audio (f (audio p)) p).

(** [emit(event, data)] *)
Definition emit (e : Event) : Method () :=
  update (λ p, with_emitted (emitted p ++ [e]) p).

(** [array.findIndex(pred)], [-1] when no element satisfies [pred]. *)
Fixpoint findIndex {A} (pred : A → bool) (l : list A) : Z :=
  match l with
  | [] => -1
  | x :: rest =>
      if pred x then 0
      else let i := findIndex pred rest in if i =? -1 then -1 else i + 1
  end.

(** [modes.indexOf(this.repeat)] and [modes[i]] in [toggleRepeat]. *)
Definition modes : list RepeatMode := [RepeatNone; RepeatOne; RepeatAll].

Definition indexOf (r : RepeatMode) (l : list RepeatMode) : Z :=
  findIndex (λ m, bool_decide (m = r)) l.

(** The source assigned to the audio element by [playTrack]:
    [track.path] when it is truthy, [track.data] otherwise. *)
Definition source_of (track : Track) : option string :=
  if JS.truthy (track_path track) then track_path track else track_data track.

(** The outcome of the promise returned by [addTrack]. *)
Inductive Settled :=
  | Resolved (track : Track)
  | Rejected (error : JS.Error).

(** What the host's [FileReader] reports for [readAsDataURL]. *)
Inductive ReadResult :=
  | ReadOk (dataURL : string)
  | ReadFailed (error : JS.Error).

Section MusicPlayer.

Context `{!JSON}.

(** [savePlaylist()]: the whole list under the primary key; when that
    write throws, the metadata-only projection under the secondary key;
    when that throws too, nothing (both failures are only logged). *)
Definition savePlaylist : Method () := λ p,
  match setItem PLAYLIST_KEY
          (JSON_stringify (playlist_to_json (playlist p)))
          (localStorage p) with
  | Some st => ((), with_localStorage st p)
  | None =>
      match setItem PLAYLIST_META_KEY
              (JSON_stringify (metadataOnly (playlist p)))
              (localStorage p) with
      | Some st => ((), with_localStorage st p)
      | None => ((), p)
      end
  end.

(** [loadPlaylist()]: reads the primary key only. A missing or empty
    record and a record that does not parse leave the list as it is.
    The result is [None] when the record parses to a document that is
    not an array of track objects: the player itself never stores one,
    and the model does not follow the player over such a list. *)
Definition loadPlaylist (p : Player) : option Player :=
  match getItem PLAYLIST_KEY (localStorage p) with
  | Some stored =>
      if JS.truthy_string stored then
        match JSON_parse stored with
        | Some doc => (λ pl, with_playlist pl p) <$> playlist_of_json doc
        | None => Some p
        end
      else Some p
  | None => Some p
  end.

(** [new MusicPlayer()] over the given [localStorage]. *)
Definition MusicPlayer_new (st : Storage) : option Player :=
  loadPlaylist
    {| playlist := []; currentTrackIndex := -1; audio := Audio_new;
       isPlaying := false; shuffle := false; repeat := RepeatNone;
       localStorage := st; emitted := [] |}.

(** The track object built by [addTrack] for a handle with a path. *)
Definition path_track (now rnd : JS.number) (file : File) : Track :=
  {| track_id := make_id now rnd;
     track_name := strip_extension (file_name file);
     track_fileName := file_name file;
     track_path := file_path file;
     track_data := None;
     track_duration := 0%float |}.

(** The track object built in [reader.onload]. *)
Definition data_track (now rnd : JS.number) (file : File) (dataURL : string)
  : Track :=
  {| track_id := make_id now rnd;
     track_name := strip_extension (file_name file);
     track_fileName := file_name file;
     track_path := None;
     track_data := Some dataURL;
     track_duration := 0%float |}.

Definition push_track (track : Track) : Method Settled :=
  update (λ p, with_playlist (playlist p ++ [track]) p) ;;
  savePlaylist ;;
  emit (Etrackadded track) ;;
  mret (Resolved track).

(** [addTrack(file)], up to the point where the promise executor
    returns. [now] and [rnd] are the values of [Date.now()] and
    [Math.random()]. The result is the settled promise for a handle with
    a path, and [None] when the promise is left pending on the
    [FileReader]. *)
Definition addTrack (now rnd : JS.number) (file : File)
  : Method (option Settled) :=
  if JS.truthy (file_path file) then
    settled ← push_track (path_track now rnd file);
    mret (Some settled)
  else mret None.

(** [reader.onload]: the read succeeded with [e.target.result]. *)
Definition reader_onload (now rnd : JS.number) (file : File)
    (dataURL : string) : Method Settled :=
  push_track (data_track now rnd file dataURL).

(** [reader.onerror]: the read failed; [reader_error] is the error the
    reader holds. *)
Definition reader_onerror (reader_error : JS.Error) : Method Settled :=
  mret (Rejected {| JS.message := "Failed to read file" |}).

(** [stop()] *)
Definition stop : Method () :=
  on_audio Audio_pause ;;
  on_audio (Audio_set_currentTime 0%float) ;;
  update (with_currentTrackIndex (-1)) ;;
  emit Estop.

(** [removeTrack(trackId)] *)
Definition removeTrack (trackId : JS.number) : Method () :=
  pl ← this playlist;
  let index := findIndex (λ t, JS.strict_eq (track_id t) trackId) pl in
  if index =? -1 then mret ()
  else
    cur ← this currentTrackIndex;
    (if index =? cur then stop else mret ()) ;;
    update (λ p, with_playlist (delete (Z.to_nat index) (playlist p)) p) ;;
    cur ← this currentTrackIndex;
    (if cur >? index then update (with_currentTrackIndex (cur - 1))
     else mret ()) ;;
    savePlaylist ;;
    emit (Etrackremoved trackId).

(** [playTrack(index)]. The promise of [audio.play()] is settled by the
    host after the method has returned; see [playTrack_catch]. *)
Definition playTrack (index : Z) : Method () :=
  pl ← this playlist;
  if (index <? 0) || (index >=? Z.of_nat (length pl)) then mret ()
  else
    update (with_currentTrackIndex index) ;;
    match pl !! Z.to_nat index with
    | Some track =>
        on_audio (Audio_set_src (source_of track)) ;;
        on_audio Audio_play ;;
        emit (Etrackchange track index)
    | None => mret ()
    end.

(** The [catch] handler of [playTrack]: the host rejected playback with
    [err]. *)
Definition playTrack_catch (err : JS.Error) : Method () :=
  emit (Eerror ("Failed to play track: " +:+ JS.message err)).

(** [pause()] *)
Definition pause : Method () := on_audio Audio_pause.

(** [togglePlay()] *)
Definition togglePlay : Method () :=
  pl ← this playlist;
  if Z.of_nat (length pl) =? 0 then mret ()
  else
    playing ← this isPlaying;
    if (playing : bool) then pause
    else
      cur ← this currentTrackIndex;
      if cur =? -1 then playTrack 0 else on_audio Audio_play.

(** [next()]; [rnd] is the value of [Math.random()], read in shuffle
    mode only. [Math.random()] lies in [0, 1), so the product with the
    length is finite and [JS.floor] gives an index. *)
Definition next (rnd : JS.number) : Method () :=
  pl ← this playlist;
  let len := Z.of_nat (length pl) in
  if len =? 0 then mret ()
  else
    sh ← this shuffle;
    if (sh : bool) then
      match JS.floor (PrimFloat.mul rnd (JS.of_Z len)) with
      | Some nextIndex => playTrack nextIndex
      | None => mret ()
      end
    else
      cur ← this currentTrackIndex;
      let nextIndex := cur + 1 in
      if nextIndex >=? len then
        r ← this repeat;
        if bool_decide (r = RepeatAll) then playTrack 0
        else stop
      else playTrack nextIndex.

(** [previous()] *)
Definition previous : Method () :=
  pl ← this playlist;
  let len := Z.of_nat (length pl) in
  if len =? 0 then mret ()
  else
    a ← this audio;
    if JS.gt (audio_currentTime a) 3%float then
      on_audio (Audio_set_currentTime 0%float)
    else
      cur ← this currentTrackIndex;
      let prevIndex := cur - 1 in
      if prevIndex <? 0 then
        r ← this repeat;
        if bool_decide (r = RepeatAll) then playTrack (len - 1)
        else playTrack 0
      else playTrack prevIndex.

(** [setVolume(volume)] *)
Definition setVolume (volume : JS.number) : Method () :=
  on_audio (Audio_set_volume (PrimFloat.div volume 100%float)).

(** [toggleShuffle()] *)
Definition toggleShuffle : Method bool :=
  update (λ p, with_shuffle (negb (shuffle p)) p) ;;
  sh ← this shuffle;
  emit (Eshufflechange sh) ;;
  mret sh.

(** [toggleRepeat()] *)
Definition toggleRepeat : Method RepeatMode :=
  r ← this repeat;
  let currentIndex := indexOf r modes in
  let r' := default RepeatNone
              (modes !! Z.to_nat ((currentIndex + 1) mod 3)) in
  update (with_repeat r') ;;
  emit (Erepeatchange r') ;;
  mret r'.

(** [seek(percentage)] *)
Definition seek (percentage : JS.number) : Method () :=
  a ← this audio;
  if JS.truthy_number (audio_duration a) then
    on_audio (Audio_set_currentTime
      (PrimFloat.mul (PrimFloat.div percentage 100%float) (audio_duration a)))
  else mret ().

(** [getCurrentTrack()]; [None] is [null] or [undefined]. *)
Definition getCurrentTrack : Method (option Track) :=
  cur ← this currentTrackIndex;
  if cur =? -1 then mret None
  else
    pl ← this playlist;
    mret (if cur <? 0 then None else pl !! Z.to_nat cur).

(** [clearPlaylist()] *)
Definition clearPlaylist : Method () :=
  stop ;;
  update (with_playlist []) ;;
  savePlaylist ;;
  emit Eplaylistcleared.

(** *** The listeners installed by [setupAudioListeners] *)

(** ['ended'] *)
Definition audio_ended (rnd : JS.number) : Method () :=
  r ← this repeat;
  if bool_decide (r = RepeatOne) then
    on_audio (Audio_set_currentTime 0%float) ;;
    on_audio Audio_play
  else next rnd.

(** ['timeupdate'] *)
Definition audio_timeupdate : Method () :=
  a ← this audio;
  emit (Etimeupdate (audio_currentTime a) (audio_duration a)
          (PrimFloat.mul
             (PrimFloat.div (audio_currentTime a) (audio_duration a))
             100%float)).

(** ['loadedmetadata'] *)
Definition audio_loadedmetadata : Method () :=
  a ← this audio;
  emit (Etrackloaded (audio_duration a)).

(** ['play'] *)
Definition audio_play_event : Method () :=
  update (with_isPlaying true) ;;
  cur ← this currentTrackIndex;
  emit (Eplay cur).

(** ['pause'] *)
Definition audio_pause_event : Method () :=
  update (with_isPlaying false) ;;
  cur ← this currentTrackIndex;
  emit (Epause cur).

End MusicPlayer.

(** ** Sequences of [addTrack] calls *)

(** One awaited call of [addTrack]: the handle, the values [Date.now()]
    and [Math.random()] take when the track object is built, and what the
    [FileReader] reports when the handle has no path. *)
Record AddCall := {
  call_file : File;
  call_now : JS.number;
  call_rnd : JS.number;
  call_read : ReadResult
}.

Section AddTracks.

Context `{!JSON}.

(** [await addTrack(file)]: the call followed by the reader's callback
    when the promise was left pending. [handleMusicUpload] in app.js adds
    the selected files this way, one after the other. *)
Definition addTrack_await (c : AddCall) : Method Settled :=
  started ← addTrack (call_now c) (call_rnd c) (call_file c);
  match started with
  | Some settled => mret settled
  | None =>
      match call_read c with
      | ReadOk dataURL =>
          reader_onload (call_now c) (call_rnd c) (call_file c) dataURL
      | ReadFailed e => reader_onerror e
      end
  end.

Definition addTracks (cs : list AddCall) (p : Player) : Player :=
  foldl (λ q c, exec (addTrack_await c) q) p cs.

End AddTracks.

(** Whether a call appends a track, and the ids of the tracks a sequence
    of calls appends. *)
Definition adds_track (c : AddCall) : bool :=
  JS.truthy (file_path (call_file c)) ||
  match call_read c with
  | ReadOk _ => true
  | ReadFailed _ => false
  end.

Definition ids_added (cs : list AddCall) : list JS.number :=
  omap (λ c, if adds_track c then Some (make_id (call_now c) (call_rnd c))
             else None) cs.

(** No number of the list is [===] to a later one. *)
Fixpoint distinct_numbers (l : list JS.number) : bool :=
  match l with
  | [] => true
  | x :: rest =>
      forallb (λ y, negb (JS.strict_eq x y)) rest && distinct_numbers rest
  end.

Definition no_duplicate_ids (pl : list Track) : bool :=
  distinct_numbers (track_id <$> pl).

(** ** Arrays and objects by reference

    [getPlaylist] returns a new array that holds the same track objects.
    To tell the new array from [this.playlist], arrays and track objects
    live in a heap and [this.playlist] is a reference. *)

Module Heap.

Definition ref := positive.

Record heap := {
  arrays : gmap ref (list ref);
  objects : gmap ref Track
}.

(** The element references of the array at [r]. *)
Definition elements (h : heap) (r : ref) : list ref :=
  default [] (arrays h !! r).

(** The tracks an array holds. *)
Definition tracks (h : heap) (r : ref) : list Track :=
  omap (λ t, objects h !! t) (elements h r).

(** The player as its methods see it. *)
Definition view (h : heap) (o : PlayerOf ref) : Player :=
  with_playlist (tracks h (playlist o)) o.

(** [getPlaylist()]: [[...this.playlist]] allocates an array with the
    elements of [this.playlist] and returns it. *)
Definition getPlaylist (o : PlayerOf ref) (h : heap) : ref * heap :=
  let r := fresh (dom (arrays h)) in
  (r, {| arrays := <[r := elements h (playlist o)]> (arrays h);
         objects := objects h |}).

(** Any change made to the array at [r] in place ([push], [pop],
    [splice], [sort], an assignment to an index or to [length]). *)
Definition array_mutate (r : ref) (f : list ref → list ref) (h : heap)
  : heap :=
  {| arrays := alter f r (arrays h); objects := objects h |}.

(** An assignment to properties of the track object at [t]. *)
Definition object_mutate (t : ref) (f : Track → Track) (h : heap) : heap :=
  {| arrays := arrays h; objects := alter f t (objects h) |}.

End Heap.

(** ** Concrete inputs *)

Module Sample.

(** A stand-in for the host's [JSON], given by a finite table of
    documents and their texts: a document of the table is rendered as
    its text and any other as [null]; a text of the table is read back
    as its document and no other text parses. *)
Definition table_JSON (table : list (json * string)) : JSON :=
  {| JSON_stringify := λ doc,
       default "null" (snd <$> List.find (λ e, json_eqb e.1 doc) table);
     JSON_parse := λ s,
       fst <$> List.find (λ e, String.eqb e.2 s) table |}.

Definition trackA : Track :=
  {| track_id := 1700000000000.25%float; track_name := "intro";
     track_fileName := "intro.mp3"; track_path := Some "/music/intro.mp3";
     track_data := None; track_duration := 0%float |}.

Definition trackB : Track :=
  {| track_id := 1700000000001.5%float; track_name := "rain";
     track_fileName := "rain.ogg"; track_path := None;
     track_data := Some "data:audio/ogg;base64,T2dnUw==";
     track_duration := 0%float |}.

Definition codec : JSON :=
  table_JSON
    [ (playlist_to_json [trackA; trackB],
       "<intro.mp3 at /music/intro.mp3, rain.ogg as data:audio/ogg;base64,T2dnUw==>");
      (metadataOnly [trackA; trackB], "<intro, rain>");
      (playlist_to_json [trackA], "<intro.mp3 by path>");
      (playlist_to_json [], "[]") ].

Definition empty_storage : Storage := {| items := ∅; quota := 5000 |}.

(** A store that holds the record of the one-track list and has room
    for the metadata of two tracks, not for their full record. *)
Definition full_storage : Storage :=
  {| items := {[ PLAYLIST_KEY := "<intro.mp3 by path>" ]}; quota := 80 |}.

(** The player [new MusicPlayer()] builds over the empty store. *)
Definition new_player : Player :=
  {| playlist := []; currentTrackIndex := -1; audio := Audio_new;
     isPlaying := false; shuffle := false; repeat := RepeatNone;
     localStorage := empty_storage; emitted := [] |}.

(** A player with two tracks, playing the second one. *)
Definition player : Player :=
  {| playlist := [trackA; trackB]; currentTrackIndex := 1;
     audio := {| audio_src := Some "data:audio/ogg;base64,T2dnUw==";
                 audio_currentTime := 2%float;
                 audio_duration := 180%float; audio_volume := 1%float;
                 audio_paused := false |};
     isPlaying := true; shuffle := false; repeat := RepeatNone;
     localStorage := empty_storage; emitted := [] |}.

(** The error a [FileReader] holds after it could not read the file. *)
Definition read_error : JS.Error :=
  {| JS.message := "The requested file could not be read" |}.

Definition fileA : File :=
  {| file_name := "intro.mp3"; file_path := Some "/music/intro.mp3" |}.

Definition fileB : File :=
  {| file_name := "rain.ogg"; file_path := None |}.

(** Two handles with a path added within the same millisecond; the two
    values of [Math.random()] differ by 2^-15. *)
Definition same_instant : list AddCall :=
  [ {| call_file := fileA; call_now := 1700000000000%float;
       call_rnd := 0.25%float;
       call_read := ReadFailed {| JS.message := "unused" |} |};
    {| call_file := {| file_name := "outro.mp3";
                       file_path := Some "/music/outro.mp3" |};
       call_now := 1700000000000%float;
       call_rnd := 0.250030517578125%float;
       call_read := ReadFailed {| JS.message := "unused" |} |} ].

(** A handle with a path, then a handle without one that is read into a
    data URL a millisecond later. *)
Definition two_files : list AddCall :=
  [ {| call_file := fileA; call_now := 1700000000000%float;
       call_rnd := 0.25%float;
       call_read := ReadFailed {| JS.message := "unused" |} |};
    {| call_file := fileB; call_now := 1700000000001%float;
       call_rnd := 0.5%float;
       call_read := ReadOk "data:audio/ogg;base64,T2dnUw==" |} ].

(** A handle without a path whose read fails. *)
Definition failing_read : AddCall :=
  {| call_file := fileB; call_now := 1700000000001%float;
     call_rnd := 0.5%float; call_read := ReadFailed read_error |}.

(** An array of two track objects, and a player whose [playlist] is a
    reference to it. *)
Definition heap : Heap.heap :=
  {| Heap.arrays := {[ 1%positive := [10%positive; 11%positive] ]};
     Heap.objects := {[ 10%positive := trackA; 11%positive := trackB ]} |}.

Definition object : PlayerOf Heap.ref := with_playlist 1%positive player.

End Sample.

(** ** Runs of the player

    What can happen to a player, one step at a time: the page calls a
    method, the [FileReader] of a pending [addTrack] calls back, the
    audio element fires an event, a play promise is rejected, or the audio
    element changes its own state (time advances, metadata arrives). *)
Inductive Command :=
  | Call_addTrack (now rnd : JS.number) (file : File)
  | Reader_onload (now rnd : JS.number) (file : File) (dataURL : string)
  | Reader_onerror (reader_error : JS.Error)
  | Call_removeTrack (trackId : JS.number)
  | Call_playTrack (index : Z)
  | Play_rejected (err : JS.Error)
  | Call_togglePlay
  | Call_pause
  | Call_stop
  | Call_next (rnd : JS.number)
  | Call_previous
  | Call_setVolume (volume : JS.number)
  | Call_toggleShuffle
  | Call_toggleRepeat
  | Call_seek (percentage : JS.number)
  | Call_clearPlaylist
  | On_ended (rnd : JS.number)
  | On_timeupdate
  | On_loadedmetadata
  | On_play
  | On_pause
  | Host_audio (change : Audio → Audio).

(** The commands that leave the list of tracks alone. *)
Definition is_playback (c : Command) : bool :=
  match c with
  | Call_addTrack _ _ _ | Reader_onload _ _ _ _ | Call_removeTrack _
  | Call_clearPlaylist => false
  | _ => true
  end.

Section Runs.

Context `{!JSON}.

Definition step (c : Command) : Player → Player :=
  match c with
  | Call_addTrack now rnd file => exec (addTrack now rnd file)
  | Reader_onload now rnd file dataURL =>
      exec (reader_onload now rnd file dataURL)
  | Reader_onerror e => exec (reader_onerror e)
  | Call_removeTrack trackId => exec (removeTrack trackId)
  | Call_playTrack index => exec (playTrack index)
  | Play_rejected err => exec (playTrack_catch err)
  | Call_togglePlay => exec togglePlay
  | Call_pause => exec pause
  | Call_stop => exec stop
  | Call_next rnd => exec (next rnd)
  | Call_previous => exec previous
  | Call_setVolume volume => exec (setVolume volume)
  | Call_toggleShuffle => exec toggleShuffle
  | Call_toggleRepeat => exec toggleRepeat
  | Call_seek percentage => exec (seek percentage)
  | Call_clearPlaylist => exec clearPlaylist
  | On_ended rnd => exec (audio_ended rnd)
  | On_timeupdate => exec audio_timeupdate
  | On_loadedmetadata => exec audio_loadedmetadata
  | On_play => exec audio_play_event
  | On_pause => exec audio_pause_event
  | Host_audio change => exec (on_audio change)
  end.

Definition run (cs : list Command) (p : Player) : Player :=
  foldl (λ q c, step c q) p cs.

End Runs.

(** The cursor is -1 or an index of the list. *)
Definition cursor_in_range (p : Player) : Prop :=
  currentTrackIndex p = -1 ∨
  0 ≤ currentTrackIndex p < Z.of_nat (length (playlist p)).

(** The track object an awaited [addTrack] appends, if any, and the
    tracks a sequence of calls appends. *)
Definition track_added (c : AddCall) : option Track :=
  if JS.truthy (file_path (call_file c)) then
    Some (path_track (call_now c) (call_rnd c) (call_file c))
  else
    match call_read c with
    | ReadOk dataURL =>
        Some (data_track (call_now c) (call_rnd c) (call_file c) dataURL)
    | ReadFailed _ => None
    end.

Definition tracks_added (cs : list AddCall) : list Track :=
  omap track_added cs.

(** The ['ended'] event fired [n] times in a row. *)
Definition ended_times (n : nat) (rnd : JS.number) (p : Player)
  : Player :=
  Nat.iter n (exec (audio_ended rnd)) p.

(** The [trackchange] events of the tracks at [count] consecutive
    positions from [first]. *)
Definition trackchanges (pl : list Track) (first : Z) (count : nat)
  : list Event :=
  omap (λ i, (λ t, Etrackchange t i) <$> pl !! Z.to_nat i)
       (seqZ first (Z.of_nat count)).

(** ** The page's use of the player (app.js) *)

(** A selected file: what [addTrack] needs of it, with its MIME type and
    its size in bytes. *)
Record UploadFile := {
  upload_call : AddCall;
  upload_type : string;
  upload_size : Z
}.

Definition validTypes : list string :=
  ["audio/mpeg"; "audio/wav"; "audio/ogg"; "audio/mp3"].

Definition to_lower (c : ascii) : ascii :=
  let n := nat_of_ascii c in
  if (65 <=? n)%nat && (n <=? 90)%nat then ascii_of_nat (n + 32) else c.

(** [name.match(/\.(mp3|wav|ogg)$/i)] *)
Definition has_audio_extension (name : string) : bool :=
  let cs := list_ascii_of_string name in
  let suffix := string_of_list_ascii (to_lower <$> drop (length cs - 4) cs) in
  bool_decide (suffix ∈ [".mp3"; ".wav"; ".ogg"]).



(** The two checks of the loop body that skip a file. *)
Definition wrong_type (f : UploadFile) : bool :=
  negb (bool_decide (upload_type f ∈ validTypes)) &&
  negb (has_audio_extension (file_name (call_file (upload_call f)))).


Section Upload.

Context `{!JSON}.



End Upload.


(** [currentTrack && currentTrack.id === track.id], the mark
    [renderPlaylist] puts on the items of the list. *)
Definition isActive (p : Player) (track : Track) : bool :=
  match result getCurrentTrack p with
  | Some currentTrack => JS.strict_eq (track_id currentTrack) (track_id track)
  | None => false
  end.

(** ** The event emitter

    [on] and [emit] with subscribers that act on a state [S] of their
    own and receive payloads of type [D]. [this.listeners] starts as the
    object literal [{}]; the map holds its own properties. *)
Module Emitter.

(** The property names an object literal inherits from
    [Object.prototype]. Under such a name [this.listeners[event]] is a
    function (under [__proto__] the prototype object): a truthy value
    that has neither [push] nor [forEach]. *)
Definition inherited_names : list string :=
  ["constructor"; "hasOwnProperty"; "isPrototypeOf"; "propertyIsEnumerable";
   "toLocaleString"; "toString"; "valueOf"; "__proto__";
   "__defineGetter__"; "__defineSetter__"; "__lookupGetter__";
   "__lookupSetter__"].

Definition inherited (event : string) : bool :=
  bool_decide (event ∈ inherited_names).

Section Emitter.

Context {D S : Type}.

Definition callback : Type := D → S → S.

(** [on(event, callback)]; [None] where the call throws a [TypeError]:
    under an inherited name the test [!this.listeners[event]] fails and
    [push] is not a function. *)
Definition on (event : string) (cb : callback)
    (listeners : gmap string (list callback))
  : option (gmap string (list callback)) :=
  if inherited event then None
  else Some (<[event := default [] (listeners !! event) ++ [cb]]> listeners).

(** [emit(event, data)]; [None] where the call throws a [TypeError]:
    under an inherited name [this.listeners[event]] is truthy and
    [forEach] is not a function. *)
Definition emit (event : string) (data : D)
    (listeners : gmap string (list callback)) (s : S) : option S :=
  if inherited event then None
  else Some match listeners !! event with
            | Some callbacks => foldl (λ s' cb, cb data s') s callbacks
            | None => s
            end.

(** The subscribers of an event, none when [on] was never called for
    it. *)
Definition subscribers (event : string)
    (listeners : gmap string (list callback)) : list callback :=
  default [] (listeners !! event).

(** [on(event, cb)] for each callback of a list in turn. *)
Definition on_each (event : string) (cbs : list callback)
    (listeners : gmap string (list callback))
  : option (gmap string (list callback)) :=
  foldl (λ acc cb, acc ≫= on event cb) (Some listeners) cbs.

End Emitter.

End Emitter.

(** The name under which the player emits an event. *)
Definition event_name (e : Event) : string :=
  match e with
  | Etrackadded _ => "trackadded"
  | Etrackremoved _ => "trackremoved"
  | Etrackchange _ _ => "trackchange"
  | Eplay _ => "play"
  | Epause _ => "pause"
  | Estop => "stop"
  | Etimeupdate _ _ _ => "timeupdate"
  | Etrackloaded _ => "trackloaded"
  | Eshufflechange _ => "shufflechange"
  | Erepeatchange _ => "repeatchange"
  | Eplaylistcleared => "playlistcleared"
  | Eerror _ => "error"
  end.

(** [setVolume] as the page calls it: with [parseInt] of a slider value. *)
Definition volume_at (percent : Z) : JS.number :=
  PrimFloat.div (JS.of_Z percent) 100%float.

(** [st'] is [st], or [st] after one successful [setItem] under one of
    the two keys of the player. *)
Definition playlist_write (st st' : Storage) : Prop :=
  st' = st ∨
  ∃ k v, (k = PLAYLIST_KEY ∨ k = PLAYLIST_META_KEY) ∧ setItem k v st = Some st'.

(** [st'] differs from [st] at most in the records under the two keys of
    the player, and holds a record wherever [st] does. *)
Definition keeps_other_records (st st' : Storage) : Prop :=
  quota st' = quota st ∧
  (∀ k, k ≠ PLAYLIST_KEY → k ≠ PLAYLIST_META_KEY →
        getItem k st' = getItem k st) ∧
  (∀ k, is_Some (getItem k st) → is_Some (getItem k st')).

(** What a playback command may do to the list, the store and the
    cursor: the list and the store stay, and the cursor stays, becomes -1
    or becomes an index of the list. *)
Definition playback_effect (p p' : Player) : Prop :=
  playlist p' = playlist p ∧ localStorage p' = localStorage p ∧
  (currentTrackIndex p' = currentTrackIndex p ∨
   currentTrackIndex p' = -1 ∨
   0 ≤ currentTrackIndex p' < Z.of_nat (length (playlist p))).


(** ** More concrete inputs *)

Module Scenario.

(** The sample player on its first track, and ten seconds into its
    second. *)
Definition on_first : Player := with_currentTrackIndex 0 Sample.player.

Definition ten_seconds_in : Player :=
  with_audio (Audio_set_currentTime 10%float (audio Sample.player))
    Sample.player.

(** The sample player idle, with no track selected. *)
Definition idle : Player :=
  with_isPlaying false (with_currentTrackIndex (-1) Sample.player).

(** A session: add a file, play it, skip, change the volume, remove the
    track by its id. *)
Definition session : list Command :=
  [ Call_addTrack 1700000000000%float 0.25%float Sample.fileA;
    Call_playTrack 0; On_play; Call_next 0.5%float;
    Call_setVolume 40%float;
    Call_removeTrack 1700000000000.25%float ].

(** Playback commands only. *)
Definition listening : list Command :=
  [ Call_previous; On_play; Call_seek 50%float; Call_toggleShuffle;
    Call_next 0.5%float; Play_rejected {| JS.message := "NotSupportedError" |};
    Call_stop ].

(** A file with an upper-case extension and no MIME type. *)
Definition capital_extension : UploadFile :=
  {| upload_call :=
       {| call_file := {| file_name := "Intro.MP3"; file_path := None |};
          call_now := 1700000000002%float; call_rnd := 0.5%float;
          call_read := ReadOk "data:audio/mpeg;base64,SUQz" |};
     upload_type := ""; upload_size := 4096 |}.

End Scenario.

(** Unfolds the plumbing of [Method]. *)
Ltac unfold_method :=
  unfold exec, result, mbind, Method_bind, mret, Method_ret, this, update,
    emit, on_audio in *.

(** * Properties *)

(** ** The helpers on concrete inputs *)

Example strip_extension_examples :
  strip_extension "intro.mp3" = "intro" ∧
  strip_extension "live.set.ogg" = "live.set" ∧
  strip_extension "README" = "README" ∧
  strip_extension "draft." = "draft." ∧
  strip_extension ".mp3" = "".
Proof. repeat split. Qed.

(** Near 1.7e12 a double has 12 fractional bits: a random number is
    rounded to a multiple of 2^-12 when it is added to the timestamp. *)
Example make_id_rounds :
  make_id 1700000000000%float 0.250030517578125%float = 1700000000000.25%float.
Proof. reflexivity. Qed.

Example floor_examples :
  JS.floor 2.75%float = Some 2 ∧ JS.floor (-2.75)%float = Some (-3) ∧
  JS.floor (PrimFloat.mul 0.875%float (JS.of_Z 3)) = Some 2.
Proof. repeat split. Qed.

Example findIndex_examples :
  findIndex (Z.eqb 7) [5; 7; 7] = 1 ∧ findIndex (Z.eqb 9) [5; 7; 7] = -1.
Proof. repeat split. Qed.

(** ** Numbers *)

Lemma SFcompare_antisym (x y : SpecFloat.spec_float) :
  SpecFloat.SFcompare y x = CompOpp <$> SpecFloat.SFcompare x y.
Proof.
  destruct x as [sx|sx| |sx mx ex], y as [sy|sy| |sy my ey]; simpl;
    try reflexivity; try (destruct sx; reflexivity);
    try (destruct sy; reflexivity);
    try (destruct sx, sy; reflexivity).
  destruct sx, sy; simpl; try reflexivity;
    rewrite (Z.compare_antisym ex ey);
    destruct (ex ?= ey)%Z; simpl; try reflexivity;
    change (Pos.compare_cont Eq my mx) with (Pos.compare my mx);
    change (Pos.compare_cont Eq mx my) with (Pos.compare mx my);
    rewrite (Pos.compare_antisym mx my);
    destruct (mx ?= my)%positive; reflexivity.
Qed.

(** [x <= y] excludes [x > y]. *)
Lemma le_not_gt (x y : JS.number) : JS.le x y = true → JS.gt x y = false.
Proof.
  unfold JS.le, JS.gt.
  rewrite FloatAxioms.leb_spec, FloatAxioms.ltb_spec.
  unfold SpecFloat.SFleb, SpecFloat.SFltb.
  rewrite (SFcompare_antisym (Prim2SF x) (Prim2SF y)).
  destruct (SpecFloat.SFcompare (Prim2SF x) (Prim2SF y)) as [[]|];
    simpl; congruence.
Qed.

(** ** Lists *)

(** [findIndex] returns the first position whose element satisfies the
    predicate. *)
Lemma findIndex_first {A} (pred : A → bool) (l : list A) (i : nat) (x : A) :
  l !! i = Some x → pred x = true →
  (∀ j y, (j < i)%nat → l !! j = Some y → pred y = false) →
  findIndex pred l = Z.of_nat i.
Proof.
  revert i. induction l as [|a l IH]; intros i Hi Hx Hbefore; [done|].
  destruct i as [|i]; simpl in *.
  - injection Hi as ->. by rewrite Hx.
  - rewrite (Hbefore 0%nat a) by (done || lia).
    rewrite (IH i Hi Hx) by (intros j y ? ?; apply (Hbefore (S j)); [lia|done]).
    destruct (Z.eqb_spec (Z.of_nat i) (-1)); lia.
Qed.

Lemma distinct_numbers_lookup (l : list JS.number) (i j : nat) (x y : JS.number) :
  distinct_numbers l = true → l !! i = Some x → l !! j = Some y →
  (i < j)%nat → JS.strict_eq x y = false.
Proof.
  revert i j. induction l as [|a l IH]; intros i j Hd Hi Hj Hlt; [done|].
  simpl in Hd. apply andb_true_iff in Hd as [Hhd Htl].
  destruct j as [|j]; [lia|]. simpl in Hj.
  destruct i as [|i]; simpl in Hi.
  - injection Hi as ->.
    rewrite forallb_forall in Hhd.
    apply negb_true_iff, Hhd, list_elem_of_In.
    by eapply list_elem_of_lookup_2.
  - eapply (IH i j); eauto; lia.
Qed.

(** ** Methods *)

Section MethodFacts.

Context `{!JSON}.

(** [savePlaylist] writes to [localStorage] and touches nothing else. *)
Lemma savePlaylist_frame (p : Player) :
  ∃ st, savePlaylist p = ((), with_localStorage st p).
Proof.
  unfold savePlaylist.
  destruct (setItem PLAYLIST_KEY _ _) as [st|]; [by exists st|].
  destruct (setItem PLAYLIST_META_KEY _ _) as [st|]; [by exists st|].
  exists (localStorage p). by destruct p.
Qed.

Lemma stop_spec (p : Player) :
  stop p =
    ((), with_emitted (emitted p ++ [Estop])
           (with_currentTrackIndex (-1)
              (with_audio
                 (Audio_set_currentTime 0%float (Audio_pause (audio p))) p))).
Proof. reflexivity. Qed.

(** [playTrack] at an index of the list. *)
Lemma playTrack_valid (p : Player) (index : Z) (track : Track) :
  0 ≤ index → playlist p !! Z.to_nat index = Some track →
  playTrack index p =
    ((), with_emitted (emitted p ++ [Etrackchange track index])
           (with_audio
              (Audio_play (Audio_set_src (source_of track) (audio p)))
              (with_currentTrackIndex index p))).
Proof.
  intros Hge Hlook. unfold playTrack. unfold_method. 
  pose proof (lookup_lt_Some _ _ _ Hlook) as Hlt.
  destruct (Z.ltb_spec index 0); [lia|].
  destruct (Z.geb_spec index (Z.of_nat (length (playlist p)))); [lia|].
  simpl. by rewrite Hlook.
Qed.

(** The id of a track at position [i] of a duplicate-free list is first
    found at [i]. *)
Lemma findIndex_own_id (pl : list Track) (i : nat) (t : Track) :
  no_duplicate_ids pl = true →
  JS.strict_eq (track_id t) (track_id t) = true →
  pl !! i = Some t →
  findIndex (λ t', JS.strict_eq (track_id t') (track_id t)) pl = Z.of_nat i.
Proof.
  intros Hnd Hself Hi.
  apply (findIndex_first _ pl i t Hi Hself).
  intros j y Hlt Hj.
  apply (distinct_numbers_lookup (track_id <$> pl) j i); try done.
  - by rewrite list_lookup_fmap, Hj.
  - by rewrite list_lookup_fmap, Hi.
Qed.

(** [previous] when the cursor cannot move back: at most 3 seconds
    into the track and no track before the cursor. *)
Lemma previous_underflow (p : Player) :
  playlist p ≠ [] →
  JS.le (audio_currentTime (audio p)) 3%float = true →
  currentTrackIndex p - 1 < 0 →
  previous p =
    playTrack (if bool_decide (repeat p = RepeatAll)
               then Z.of_nat (length (playlist p)) - 1 else 0) p.
Proof.
  intros Hne Hle Hcur. unfold previous. unfold_method.
  destruct (Z.eqb_spec (Z.of_nat (length (playlist p))) 0) as [H0|_].
  { destruct (playlist p); simpl in *; [done|lia]. }
  rewrite (le_not_gt _ _ Hle).
  destruct (Z.ltb_spec (currentTrackIndex p - 1) 0); [|lia].
  by destruct (bool_decide (repeat p = RepeatAll)).
Qed.

Lemma nonempty_length (pl : list Track) :
  pl ≠ [] → 1 ≤ Z.of_nat (length pl).
Proof. destruct pl; simpl; [done|lia]. Qed.

Lemma last_index_lookup (pl : list Track) :
  pl ≠ [] → is_Some (pl !! Z.to_nat (Z.of_nat (length pl) - 1)).
Proof.
  intros Hne. apply lookup_lt_is_Some.
  destruct pl; simpl in *; [done|lia].
Qed.

Lemma push_track_spec (t : Track) (p : Player) :
  ∃ st, push_track t p =
    (Resolved t,
     with_emitted (emitted p ++ [Etrackadded t])
       (with_localStorage st (with_playlist (playlist p ++ [t]) p))).
Proof.
  unfold push_track. unfold_method.
  match goal with |- context [savePlaylist ?s] =>
    destruct (savePlaylist_frame s) as [st ->] end.
  by exists st.
Qed.

(** An awaited [addTrack] appends one track, with the id [make_id]
    computes, or none when the read fails. *)
Lemma addTrack_await_ids (c : AddCall) (p : Player) :
  track_id <$> playlist (exec (addTrack_await c) p)
  = (track_id <$> playlist p)
      ++ (if adds_track c then [make_id (call_now c) (call_rnd c)] else []).
Proof.
  unfold addTrack_await, addTrack, adds_track, reader_onload, exec.
  destruct (JS.truthy (file_path (call_file c))); simpl.
  - unfold mbind, Method_bind.
    destruct (push_track_spec (path_track (call_now c) (call_rnd c)
                (call_file c)) p) as [st ->].
    cbn. by rewrite fmap_app.
  - unfold_method. destruct (call_read c) as [d|e]; simpl.
    + destruct (push_track_spec (data_track (call_now c) (call_rnd c)
                  (call_file c) d) p) as [st ->].
      cbn. by rewrite fmap_app.
    + by rewrite app_nil_r.
Qed.

Lemma addTracks_ids (cs : list AddCall) (p : Player) :
  track_id <$> playlist (addTracks cs p)
  = (track_id <$> playlist p) ++ ids_added cs.
Proof.
  revert p. induction cs as [|c cs IH]; intros p; simpl.
  - by rewrite app_nil_r.
  - unfold addTracks in *. simpl. rewrite IH, addTrack_await_ids.
    rewrite <- app_assoc. by destruct (adds_track c).
Qed.

Lemma setItem_Some (k v : string) (st st' : Storage) :
  setItem k v st = Some st' →
  items st' = <[k := v]> (items st) ∧ quota st' = quota st.
Proof.
  unfold setItem. destruct (_ <=? _)%nat; [|done].
  by intros [= <-].
Qed.

Lemma track_json_roundtrip (t : Track) :
  track_of_json (track_to_json t) = Some t.
Proof. by destruct t as [i n f [pa|] [d|] du]. Qed.

Lemma playlist_json_roundtrip (pl : list Track) :
  playlist_of_json (playlist_to_json pl) = Some pl.
Proof.
  unfold playlist_of_json, playlist_to_json.
  induction pl as [|t pl IH]; [done|].
  cbn -[track_of_json track_to_json].
  by rewrite track_json_roundtrip, IH.
Qed.

(** What [loadPlaylist] makes of the list is decided by the record
    under the primary key alone. *)
Lemma loadPlaylist_primary_only (p q : Player) :
  getItem PLAYLIST_KEY (localStorage p) = getItem PLAYLIST_KEY (localStorage q) →
  playlist p = playlist q →
  playlist <$> loadPlaylist p = playlist <$> loadPlaylist q.
Proof.
  intros Hkey Hpl. unfold loadPlaylist. rewrite Hkey.
  destruct (getItem PLAYLIST_KEY (localStorage q)) as [stored|];
    simpl; [|by rewrite Hpl].
  destruct (JS.truthy_string stored); simpl; [|by rewrite Hpl].
  destruct (JSON_parse stored) as [doc|]; simpl; [|by rewrite Hpl].
  by destruct (playlist_of_json doc).
Qed.

End MethodFacts.

(** ** The claims of the specification *)

Section Claims.

Context `{!JSON}.

(** C1 (as amended). When the handle has no path, [addTrack] leaves the
    player untouched and its promise pending; when the read then fails,
    the promise is rejected with an [Error] whose message is the fixed
    text "Failed to read file", whatever error the reader holds, the
    playlist is unchanged and no event is emitted. *)
Theorem addTrack_read_failure (now rnd : JS.number) (file : File)
    (reader_error : JS.Error) (p q : Player) :
  JS.truthy (file_path file) = false →
  addTrack now rnd file p = (None, p) ∧
  result (reader_onerror reader_error) q
    = Rejected {| JS.message := "Failed to read file" |} ∧
  playlist (exec (reader_onerror reader_error) q) = playlist q ∧
  emitted (exec (reader_onerror reader_error) q) = emitted q.
Proof.
  intros Hpath. unfold addTrack. rewrite Hpath. by repeat split.
Qed.

(** When no two tracks of the list share an id, removing the track
    under the cursor (by its id, a number that is [===] to itself) leaves
    the cursor at -1 with the audio element paused and rewound: [stop]
    runs before the track is spliced out, and the decrement that follows
    does not move the cursor off -1. *)
Lemma removeTrack_current_stops (p : Player) (t : Track) :
  no_duplicate_ids (playlist p) = true →
  JS.strict_eq (track_id t) (track_id t) = true →
  0 ≤ currentTrackIndex p →
  playlist p !! Z.to_nat (currentTrackIndex p) = Some t →
  let p' := exec (removeTrack (track_id t)) p in
  currentTrackIndex p' = -1 ∧
  audio_paused (audio p') = true ∧
  audio_currentTime (audio p') = 0%float ∧
  playlist p' = delete (Z.to_nat (currentTrackIndex p)) (playlist p) ∧
  emitted p' = emitted p ++ [Estop; Etrackremoved (track_id t)].
Proof.
  intros Hnd Hself Hcur Ht p'. subst p'.
  pose proof (findIndex_own_id _ _ _ Hnd Hself Ht) as Hfind.
  rewrite Z2Nat.id in Hfind by done.
  unfold removeTrack. unfold_method. rewrite Hfind.
  destruct (Z.eqb_spec (currentTrackIndex p) (-1)) as [|_]; [lia|].
  rewrite Z.eqb_refl, stop_spec. cbn -[savePlaylist].
  destruct (Z.gtb_spec (-1) (currentTrackIndex p)) as [|_]; [lia|].
  match goal with |- context [savePlaylist ?s] =>
    destruct (savePlaylist_frame s) as [st ->] end.
  cbn. repeat split. by rewrite <- app_assoc.
Qed.

(** C4. With shuffle off and the cursor on the last track of a
    non-empty playlist, [next] plays track 0 under repeat 'all'; under
    'none' and 'one' it does what [stop] does and the cursor ends at
    -1. *)
Theorem next_at_last_index (rnd : JS.number) (p : Player) :
  playlist p ≠ [] →
  shuffle p = false →
  currentTrackIndex p = Z.of_nat (length (playlist p)) - 1 →
  (repeat p = RepeatAll →
     next rnd p = playTrack 0 p ∧
     currentTrackIndex (exec (next rnd) p) = 0) ∧
  (repeat p ≠ RepeatAll →
     next rnd p = stop p ∧
     currentTrackIndex (exec (next rnd) p) = -1 ∧
     audio_paused (audio (exec (next rnd) p)) = true ∧
     emitted (exec (next rnd) p) = emitted p ++ [Estop]).
Proof.
  intros Hne Hsh Hcur.
  assert (Hlen : Z.of_nat (length (playlist p)) ≠ 0)
    by (destruct (playlist p); simpl; [done|lia]).
  assert (Hnext : next rnd p
            = (if bool_decide (repeat p = RepeatAll) then playTrack 0
               else stop) p).
  { unfold next. unfold_method.
    destruct (Z.eqb_spec (Z.of_nat (length (playlist p))) 0); [done|].
    rewrite Hsh, Hcur.
    destruct (Z.geb_spec (Z.of_nat (length (playlist p)) - 1 + 1)
                (Z.of_nat (length (playlist p)))); [done|lia]. }
  unfold exec. split; intros Hr; rewrite Hnext.
  - rewrite bool_decide_eq_true_2 by done. split; [done|].
    destruct (playlist p) as [|t0 pl] eqn:Hpl; [done|].
    by rewrite (playTrack_valid p 0 t0) by (done || by rewrite Hpl).
  - rewrite bool_decide_eq_false_2 by done. split; [done|].
    by rewrite stop_spec.
Qed.

(** C5. At most 3 seconds into the track, with the cursor on track 0
    of a non-empty playlist, [previous] plays the last track under
    repeat 'all'; otherwise it plays track 0 again: the cursor stays at
    0, the audio element is left playing and the only event is
    [trackchange] (no [stop], unlike [next] at the end of the list). *)
Theorem previous_at_first_index (p : Player) :
  playlist p ≠ [] →
  JS.le (audio_currentTime (audio p)) 3%float = true →
  currentTrackIndex p = 0 →
  (repeat p = RepeatAll →
     previous p = playTrack (Z.of_nat (length (playlist p)) - 1) p ∧
     currentTrackIndex (exec previous p)
       = Z.of_nat (length (playlist p)) - 1) ∧
  (repeat p ≠ RepeatAll →
     currentTrackIndex (exec previous p) = 0 ∧
     audio_paused (audio (exec previous p)) = false ∧
     ∃ first, playlist p !! 0%nat = Some first ∧
       emitted (exec previous p) = emitted p ++ [Etrackchange first 0]).
Proof.
  intros Hne Hle Hcur.
  pose proof (previous_underflow p Hne Hle ltac:(lia)) as Hprev.
  unfold exec. rewrite Hprev. split; intros Hr.
  - rewrite bool_decide_eq_true_2 by done. split; [done|].
    destruct (last_index_lookup _ Hne) as [t Ht].
    pose proof (nonempty_length _ Hne).
    by rewrite (playTrack_valid p _ t) by (done || lia).
  - rewrite bool_decide_eq_false_2 by done.
    destruct (playlist p) as [|t0 pl] eqn:Hpl; [done|].
    rewrite (playTrack_valid p 0 t0) by (done || by rewrite Hpl).
    repeat split. by exists t0.
Qed.

(** C6. For an index of the list, [playTrack] has moved the cursor,
    assigned the source and emitted [trackchange] with that track and
    index by the time it returns, whatever becomes of the play promise.
    When the host then rejects playback, the [catch] handler emits
    [error] with the message "Failed to play track: " followed by the
    host's message, after [trackchange], and changes nothing else:
    cursor and source stay as [playTrack] set them. *)
Theorem playTrack_then_rejection (p : Player) (index : Z) (err : JS.Error) :
  0 ≤ index < Z.of_nat (length (playlist p)) →
  (∀ q : Player, exec (playTrack_catch err) q
     = with_emitted
         (emitted q ++ [Eerror ("Failed to play track: " +:+ JS.message err)])
         q) ∧
  ∃ track, playlist p !! Z.to_nat index = Some track ∧
    let p1 := exec (playTrack index) p in
    let p2 := exec (playTrack_catch err) p1 in
    emitted p1 = emitted p ++ [Etrackchange track index] ∧
    currentTrackIndex p1 = index ∧
    audio_src (audio p1) = source_of track ∧
    emitted p2 = emitted p ++
      [Etrackchange track index;
       Eerror ("Failed to play track: " +:+ JS.message err)] ∧
    currentTrackIndex p2 = index ∧
    audio_src (audio p2) = source_of track.
Proof.
  intros [Hge Hlt]. split; [done|].
  destruct (lookup_lt_is_Some_2 (playlist p) (Z.to_nat index)) as [t Ht];
    [lia|].
  exists t. split; [done|]. unfold exec.
  rewrite (playTrack_valid p index t Hge Ht). cbn.
  repeat split. by rewrite <- app_assoc.
Qed.

(** C8. With no track selected (cursor -1), at most 3 seconds on the
    audio clock and a non-empty playlist, [previous] starts playback:
    -1 - 1 is below 0, so it plays the last track under repeat 'all' and
    track 0 otherwise. *)
Theorem previous_without_selection (p : Player) :
  playlist p ≠ [] →
  JS.le (audio_currentTime (audio p)) 3%float = true →
  currentTrackIndex p = -1 →
  let target := if bool_decide (repeat p = RepeatAll)
                then Z.of_nat (length (playlist p)) - 1 else 0 in
  previous p = playTrack target p ∧
  ∃ track, playlist p !! Z.to_nat target = Some track ∧
    currentTrackIndex (exec previous p) = target ∧
    audio_paused (audio (exec previous p)) = false ∧
    audio_src (audio (exec previous p)) = source_of track ∧
    emitted (exec previous p) = emitted p ++ [Etrackchange track target].
Proof.
  intros Hne Hle Hcur target.
  pose proof (previous_underflow p Hne Hle ltac:(lia)) as Hprev.
  fold target in Hprev. split; [done|].
  assert (Htarget : 0 ≤ target ∧ is_Some (playlist p !! Z.to_nat target)).
  { subst target. destruct (bool_decide (repeat p = RepeatAll)).
    - split; [|by apply last_index_lookup].
      pose proof (nonempty_length _ Hne). lia.
    - split; [done|]. destruct (playlist p); [done|by eexists]. }
  destruct Htarget as [Hge [t Ht]]. exists t. split; [done|].
  unfold exec. by rewrite Hprev, (playTrack_valid p target t Hge Ht).
Qed.

(** C7. When the write under the primary key succeeds and the host's
    JSON reads the text of the playlist back as the same document,
    [loadPlaylist] in any player over the resulting store (the saving
    player or a new one) yields the saved list: the same tracks in the
    same order, each with its id, name, file name, path or data. *)
Theorem save_load_roundtrip (p q : Player) :
  is_Some (setItem PLAYLIST_KEY
             (JSON_stringify (playlist_to_json (playlist p)))
             (localStorage p)) →
  JSON_parse (JSON_stringify (playlist_to_json (playlist p)))
    = Some (playlist_to_json (playlist p)) →
  JSON_parse "" = None →
  localStorage q = localStorage (exec savePlaylist p) →
  ∃ q', loadPlaylist q = Some q' ∧ playlist q' = playlist p.
Proof.
  intros [st Hset] Hparse Hempty Hstore.
  unfold exec, savePlaylist in Hstore. rewrite Hset in Hstore.
  simpl in Hstore.
  destruct (setItem_Some _ _ _ _ Hset) as [Hitems _].
  unfold loadPlaylist, getItem. rewrite Hstore, Hitems, lookup_insert_eq.
  set (text := JSON_stringify (playlist_to_json (playlist p))) in *.
  assert (Htruthy : JS.truthy_string text = true).
  { unfold JS.truthy_string. destruct (String.eqb_spec text "") as [E|]; [|done].
    rewrite E in Hparse. congruence. }
  rewrite Htruthy, Hparse, playlist_json_roundtrip. simpl.
  by eexists.
Qed.

(** C9. When the write under the primary key fails, [savePlaylist]
    leaves the primary record as it was, and a player built afterwards
    over that store gets the list a player built before the save would
    have got: the one of the stale primary record, or the empty list
    when that record is missing or does not parse. Whatever is stored
    under the secondary key makes no difference. *)
Theorem fallback_record_never_loaded (p : Player) :
  setItem PLAYLIST_KEY (JSON_stringify (playlist_to_json (playlist p)))
    (localStorage p) = None →
  let st' := localStorage (exec savePlaylist p) in
  getItem PLAYLIST_KEY st' = getItem PLAYLIST_KEY (localStorage p) ∧
  playlist <$> MusicPlayer_new st'
    = playlist <$> MusicPlayer_new (localStorage p) ∧
  (∀ meta, playlist <$> MusicPlayer_new
             {| items := <[PLAYLIST_META_KEY := meta]> (items st');
                quota := quota st' |}
           = playlist <$> MusicPlayer_new st') ∧
  (getItem PLAYLIST_KEY (localStorage p) = None →
     playlist <$> MusicPlayer_new st' = Some []) ∧
  (∀ stored, getItem PLAYLIST_KEY (localStorage p) = Some stored →
     JSON_parse stored = None →
     playlist <$> MusicPlayer_new st' = Some []).
Proof.
  intros Hfail st'.
  assert (Hkey : getItem PLAYLIST_KEY st' = getItem PLAYLIST_KEY (localStorage p)).
  { subst st'. unfold exec, savePlaylist. rewrite Hfail.
    destruct (setItem PLAYLIST_META_KEY _ _) as [st|] eqn:Hmeta; [|done].
    destruct (setItem_Some _ _ _ _ Hmeta) as [Hitems _]. simpl.
    unfold getItem. rewrite Hitems. by apply lookup_insert_ne. }
  assert (Hnew : playlist <$> MusicPlayer_new st'
                 = playlist <$> MusicPlayer_new (localStorage p))
    by (by apply loadPlaylist_primary_only).
  split; [done|]. split; [done|]. split; [|split].
  - intros meta. apply loadPlaylist_primary_only; [|done].
    unfold getItem. simpl. by apply lookup_insert_ne.
  - intros Hnone. rewrite Hnew. unfold MusicPlayer_new, loadPlaylist.
    simpl. by rewrite Hnone.
  - intros stored Hsome Hbad. rewrite Hnew.
    unfold MusicPlayer_new, loadPlaylist. simpl. rewrite Hsome, Hbad.
    by destruct (JS.truthy_string stored).
Qed.

End Claims.

(** C10. [getPlaylist] returns a new array: it is not [this.playlist], it
    holds the same track objects in the same order, and whatever is then
    done to it in place, the array of the player and so the player every
    method sees are what they were before the call. *)
Theorem getPlaylist_fresh_copy (h : Heap.heap) (o : PlayerOf Heap.ref) :
  is_Some (Heap.arrays h !! playlist o) →
  let r := (Heap.getPlaylist o h).1 in
  let h' := (Heap.getPlaylist o h).2 in
  r ≠ playlist o ∧
  Heap.elements h' r = Heap.elements h (playlist o) ∧
  Heap.tracks h' r = Heap.tracks h (playlist o) ∧
  Heap.view h' o = Heap.view h o ∧
  ∀ f : list Heap.ref → list Heap.ref,
    Heap.elements (Heap.array_mutate r f h') (playlist o)
      = Heap.elements h (playlist o) ∧
    Heap.view (Heap.array_mutate r f h') o = Heap.view h o ∧
    ∀ (A : Type) (m : Method A),
      m (Heap.view (Heap.array_mutate r f h') o) = m (Heap.view h o).
Proof.
  intros Halloc r h'.
  assert (Hfresh : r ≠ playlist o).
  { intros E. apply elem_of_dom in Halloc. rewrite <- E in Halloc.
    by apply (is_fresh (dom (Heap.arrays h))). }
  assert (Hsame : ∀ f, Heap.elements (Heap.array_mutate r f h') (playlist o)
                       = Heap.elements h (playlist o)).
  { intros f. unfold Heap.elements, Heap.array_mutate. simpl.
    rewrite lookup_alter_ne by done. fold r. by rewrite lookup_insert_ne. }
  assert (Hview : ∀ f, Heap.view (Heap.array_mutate r f h') o = Heap.view h o).
  { intros f. unfold Heap.view, Heap.tracks. by rewrite Hsame. }
  split; [done|]. split; [|split; [|split]].
  - unfold Heap.elements at 1. simpl. fold r. by rewrite lookup_insert_eq.
  - unfold Heap.tracks, Heap.elements at 1. simpl. fold r.
    by rewrite lookup_insert_eq.
  - unfold Heap.view, Heap.tracks, Heap.elements at 1. simpl. fold r.
    by rewrite lookup_insert_ne.
  - intros f. split; [done|]. split; [done|].
    intros A m. by rewrite Hview.
Qed.

(** ** The claims at concrete inputs *)

Section Concrete.

Local Existing Instance Sample.codec.

(** Against C1 as stated: the rejection does not carry the message of
    the reader's error. *)
Lemma addTrack_read_error_message_dropped :
  ¬ ∃ err,
      result (addTrack_await Sample.failing_read) Sample.player = Rejected err ∧
      JS.message err = JS.message Sample.read_error.
Proof.
  intros (err & Hres & Hmsg). vm_compute in Hres.
  injection Hres as <-. discriminate Hmsg.
Qed.

Lemma addTrack_read_failure_witness :
  JS.truthy (file_path Sample.fileB) = false ∧
  addTrack 1700000000001%float 0.5%float Sample.fileB Sample.player
    = (None, Sample.player) ∧
  result (reader_onerror Sample.read_error) Sample.player
    = Rejected {| JS.message := "Failed to read file" |} ∧
  emitted (exec (reader_onerror Sample.read_error) Sample.player) = [].
Proof.
  split; [reflexivity|].
  pose proof (addTrack_read_failure 1700000000001%float 0.5%float
                Sample.fileB Sample.read_error Sample.player Sample.player
                eq_refl) as (Hstart & Hreject & _ & Hevents).
  exact (conj Hstart (conj Hreject Hevents)).
Defined.

(** C2, the code at two calls within one millisecond: the two tracks
    get the same id although the two random numbers differ, because the
    sum [Date.now() + Math.random()] is rounded to a double. *)
Lemma addTrack_same_instant_same_id :
  MusicPlayer_new Sample.empty_storage = Some Sample.new_player ∧
  track_id <$> playlist (addTracks Sample.same_instant Sample.new_player)
    = [1700000000000.25%float; 1700000000000.25%float] ∧
  no_duplicate_ids (playlist (addTracks Sample.same_instant Sample.new_player))
    = false.
Proof. vm_compute. repeat split. Qed.

(** C3, the code where two tracks share an id. The two tracks of C2
    are in the list and the second one is playing. [removeTrack] with the
    id of the playing track finds the first entry: it removes that one,
    does not call [stop], and moves the cursor from 1 to 0, so the track
    that was to be removed stays in the list and keeps playing. *)
Lemma removeTrack_duplicate_id_keeps_playing :
  let p := exec (playTrack 1)
             (addTracks Sample.same_instant Sample.new_player) in
  ∃ first current,
    playlist p = [first; current] ∧
    currentTrackIndex p = 1 ∧
    result getCurrentTrack p = Some current ∧
    track_fileName first = "intro.mp3" ∧
    track_fileName current = "outro.mp3" ∧
    let p' := exec (removeTrack (track_id current)) p in
    playlist p' = [current] ∧
    currentTrackIndex p' = 0 ∧
    audio_paused (audio p') = false ∧
    audio_src (audio p') = Some "/music/outro.mp3" ∧
    emitted p' = emitted p ++ [Etrackremoved (track_id current)].
Proof.
  exists {| track_id := 1700000000000.25%float; track_name := "intro";
            track_fileName := "intro.mp3";
            track_path := Some "/music/intro.mp3"; track_data := None;
            track_duration := 0%float |},
         {| track_id := 1700000000000.25%float; track_name := "outro";
            track_fileName := "outro.mp3";
            track_path := Some "/music/outro.mp3"; track_data := None;
            track_duration := 0%float |}.
  repeat (split; [vm_compute; reflexivity|]).
  vm_compute; reflexivity.
Qed.

Lemma removeTrack_current_stops_witness :
  no_duplicate_ids (playlist Sample.player) = true ∧
  playlist Sample.player !! Z.to_nat (currentTrackIndex Sample.player)
    = Some Sample.trackB ∧
  currentTrackIndex
    (exec (removeTrack (track_id Sample.trackB)) Sample.player) = -1 ∧
  playlist (exec (removeTrack (track_id Sample.trackB)) Sample.player)
    = [Sample.trackA].
Proof.
  split; [reflexivity|]. split; [reflexivity|].
  pose proof (removeTrack_current_stops Sample.player Sample.trackB
                eq_refl eq_refl ltac:(simpl; lia) eq_refl)
    as (Hcursor & _ & _ & Hlist & _).
  exact (conj Hcursor Hlist).
Defined.

Lemma next_at_last_index_witness :
  currentTrackIndex Sample.player
    = Z.of_nat (length (playlist Sample.player)) - 1 ∧
  currentTrackIndex (exec (next 0.5%float) Sample.player) = -1 ∧
  currentTrackIndex
    (exec (next 0.5%float) (with_repeat RepeatAll Sample.player)) = 0.
Proof.
  split; [reflexivity|]. split.
  - apply (next_at_last_index 0.5%float Sample.player);
      [discriminate|reflexivity|reflexivity|discriminate].
  - apply (next_at_last_index 0.5%float (with_repeat RepeatAll Sample.player));
      [discriminate|reflexivity|reflexivity|reflexivity].
Defined.

Lemma previous_at_first_index_witness :
  JS.le (audio_currentTime (audio Sample.player)) 3%float = true ∧
  currentTrackIndex
    (exec previous (with_currentTrackIndex 0 Sample.player)) = 0 ∧
  currentTrackIndex
    (exec previous
       (with_repeat RepeatAll (with_currentTrackIndex 0 Sample.player))) = 1.
Proof.
  split; [reflexivity|]. split.
  - apply (previous_at_first_index (with_currentTrackIndex 0 Sample.player));
      [discriminate|reflexivity|reflexivity|discriminate].
  - apply (previous_at_first_index
             (with_repeat RepeatAll (with_currentTrackIndex 0 Sample.player)));
      [discriminate|reflexivity|reflexivity|reflexivity].
Defined.

Lemma playTrack_then_rejection_witness :
  emitted
    (exec (playTrack_catch {| JS.message := "NotSupportedError" |})
       (exec (playTrack 0) Sample.player))
  = [Etrackchange Sample.trackA 0;
     Eerror "Failed to play track: NotSupportedError"] ∧
  currentTrackIndex
    (exec (playTrack_catch {| JS.message := "NotSupportedError" |})
       (exec (playTrack 0) Sample.player)) = 0.
Proof.
  pose proof (playTrack_then_rejection Sample.player 0
                {| JS.message := "NotSupportedError" |}
                ltac:(simpl; lia)) as [_ (track & Htrack & H)].
  injection Htrack as <-.
  destruct H as (_ & _ & _ & Hevents & Hcursor & _).
  exact (conj Hevents Hcursor).
Defined.

Lemma save_load_roundtrip_witness :
  ∃ q', loadPlaylist
          (with_localStorage (localStorage (exec savePlaylist Sample.player))
             Sample.new_player) = Some q' ∧
        playlist q' = [Sample.trackA; Sample.trackB].
Proof.
  apply (save_load_roundtrip Sample.player
           (with_localStorage (localStorage (exec savePlaylist Sample.player))
              Sample.new_player)).
  - vm_compute. by eexists.
  - reflexivity.
  - reflexivity.
  - reflexivity.
Defined.

Lemma previous_without_selection_witness :
  currentTrackIndex (with_currentTrackIndex (-1) Sample.player) = -1 ∧
  currentTrackIndex
    (exec previous (with_currentTrackIndex (-1) Sample.player)) = 0 ∧
  audio_paused
    (audio (exec previous (with_currentTrackIndex (-1) Sample.player)))
  = false.
Proof.
  split; [reflexivity|].
  pose proof (previous_without_selection
                (with_currentTrackIndex (-1) Sample.player)
                ltac:(discriminate) eq_refl eq_refl)
    as (_ & track & _ & Hcursor & Hplaying & _).
  exact (conj Hcursor Hplaying).
Defined.

Lemma fallback_record_never_loaded_witness :
  getItem PLAYLIST_META_KEY
    (localStorage (exec savePlaylist
                     (with_localStorage Sample.full_storage Sample.player)))
  = Some "<intro, rain>" ∧
  playlist <$> MusicPlayer_new
    (localStorage (exec savePlaylist
                     (with_localStorage Sample.full_storage Sample.player)))
  = playlist <$> MusicPlayer_new Sample.full_storage.
Proof.
  split; [reflexivity|].
  apply (fallback_record_never_loaded
           (with_localStorage Sample.full_storage Sample.player)).
  reflexivity.
Defined.

End Concrete.

Lemma getPlaylist_fresh_copy_witness :
  (Heap.getPlaylist Sample.object Sample.heap).1 ≠ playlist Sample.object ∧
  Heap.tracks (Heap.getPlaylist Sample.object Sample.heap).2
    (Heap.getPlaylist Sample.object Sample.heap).1
  = [Sample.trackA; Sample.trackB] ∧
  playlist
    (Heap.view
       (Heap.array_mutate (Heap.getPlaylist Sample.object Sample.heap).1
          (λ _, []) (Heap.getPlaylist Sample.object Sample.heap).2)
       Sample.object)
  = [Sample.trackA; Sample.trackB].
Proof.
  pose proof (getPlaylist_fresh_copy Sample.heap Sample.object
                ltac:(by eexists)) as (Hfresh & _ & Htracks & _ & Hmut).
  destruct (Hmut (λ _, [])) as (_ & Hview & _).
  split; [exact Hfresh|]. split.
  - rewrite Htracks. reflexivity.
  - rewrite Hview. reflexivity.
Defined.

(** The copy is shallow: a track object changed through the returned
    array is the track object the player holds. *)
Example getPlaylist_shares_track_objects :
  ∀ rename : Track → Track,
    playlist
      (Heap.view
         (Heap.object_mutate 10%positive rename
            (Heap.getPlaylist Sample.object Sample.heap).2)
         Sample.object)
    = [rename Sample.trackA; Sample.trackB].
Proof. intros rename. reflexivity. Qed.

(** * Further properties of the player *)

(** ** Numbers and lists *)

Lemma strict_eq_sym (x y : JS.number) : JS.strict_eq x y = JS.strict_eq y x.
Proof.
  unfold JS.strict_eq. rewrite !FloatAxioms.eqb_spec.
  unfold SpecFloat.SFeqb.
  rewrite (SFcompare_antisym (Prim2SF x) (Prim2SF y)).
  by destruct (SpecFloat.SFcompare (Prim2SF x) (Prim2SF y)) as [[]|].
Qed.

Lemma findIndex_absent {A} (pred : A → bool) (l : list A) :
  (∀ x, x ∈ l → pred x = false) → findIndex pred l = -1.
Proof.
  induction l as [|a l IH]; intros Hall; simpl; [done|].
  rewrite (Hall a) by left.
  rewrite IH by (intros x ?; apply Hall; by right). done.
Qed.

Lemma volume_checks :
  forallb (λ m, JS.le 0%float (volume_at m) && JS.le (volume_at m) 1%float &&
                forallb (λ n, negb (m <=? n) || JS.le (volume_at m) (volume_at n))
                        (seqZ 0 101))
          (seqZ 0 101) = true.
Proof. vm_compute. reflexivity. Qed.

Lemma in_seqZ_percent (n : Z) : 0 ≤ n ≤ 100 → In n (seqZ 0 101).
Proof. intros ?. apply list_elem_of_In, elem_of_seqZ. lia. Qed.

Lemma distinct_numbers_delete (l : list JS.number) (i : nat) :
  distinct_numbers l = true → distinct_numbers (delete i l) = true.
Proof.
  revert i. induction l as [|a l IH]; intros i Hd; [by destruct i|].
  simpl in Hd. apply andb_true_iff in Hd as [Hhd Htl].
  destruct i as [|i]; [done|]. simpl. apply andb_true_iff. split; [|by apply IH].
  rewrite forallb_forall in *. intros y Hy. apply Hhd.
  apply list_elem_of_In. apply list_elem_of_In in Hy.
  by eapply list_elem_of_delete_inv.
Qed.

Lemma fmap_delete {A B} (f : A → B) (l : list A) (i : nat) :
  f <$> delete i l = delete i (f <$> l).
Proof.
  revert i. induction l as [|a l IH]; intros [|i]; simpl; try done.
  by rewrite <- IH.
Qed.

(** In a list without duplicate ids, the id of the track at position [i]
    is carried by no entry at another position. *)
Lemma no_duplicate_ids_elsewhere (pl : list Track) (i j : nat) (t u : Track) :
  no_duplicate_ids pl = true → pl !! i = Some t → pl !! j = Some u → i ≠ j →
  JS.strict_eq (track_id u) (track_id t) = false.
Proof.
  intros Hnd Hi Hj Hne.
  assert (Hi' : (track_id <$> pl) !! i = Some (track_id t))
    by (by rewrite list_lookup_fmap, Hi).
  assert (Hj' : (track_id <$> pl) !! j = Some (track_id u))
    by (by rewrite list_lookup_fmap, Hj).
  destruct (Nat.lt_ge_cases j i) as [Hlt|Hge].
  - by apply (distinct_numbers_lookup _ j i _ _ Hnd Hj' Hi').
  - rewrite strict_eq_sym.
    apply (distinct_numbers_lookup _ i j _ _ Hnd Hi' Hj'). lia.
Qed.

(** ** Single methods *)

(** [playTrack] either ignores the call or plays a track of the list. *)
Lemma playTrack_cases (p : Player) (index : Z) :
  ((index < 0 ∨ Z.of_nat (length (playlist p)) ≤ index) ∧
   playTrack index p = ((), p)) ∨
  (∃ track, 0 ≤ index ∧ playlist p !! Z.to_nat index = Some track ∧
     playTrack index p =
       ((), with_emitted (emitted p ++ [Etrackchange track index])
              (with_audio
                 (Audio_play (Audio_set_src (source_of track) (audio p)))
                 (with_currentTrackIndex index p)))).
Proof.
  destruct (Z.ltb_spec index 0) as [Hneg|Hge].
  { left. split; [lia|]. unfold playTrack. unfold_method.
    destruct (Z.ltb_spec index 0); [done|lia]. }
  destruct (Z.geb_spec index (Z.of_nat (length (playlist p)))) as [Hout|Hin].
  { left. split; [lia|]. unfold playTrack. unfold_method.
    destruct (Z.ltb_spec index 0); [done|].
    destruct (Z.geb_spec index (Z.of_nat (length (playlist p)))); [done|lia]. }
  right.
  destruct (lookup_lt_is_Some_2 (playlist p) (Z.to_nat index)) as [t Ht]; [lia|].
  exists t. split; [done|]. split; [done|]. by apply playTrack_valid.
Qed.

(** X1. [playTrack] with an index below 0 or not below the length of the
    list does nothing: no field changes and no event is emitted. *)
Theorem playTrack_outside_list (p : Player) (index : Z) :
  index < 0 ∨ Z.of_nat (length (playlist p)) ≤ index →
  playTrack index p = ((), p).
Proof.
  intros Hout. destruct (playTrack_cases p index) as [[_ H]|(t & Hge & Ht & _)];
    [done|].
  apply lookup_lt_Some in Ht. lia.
Qed.

(** X2. With an empty list [togglePlay], [next], [previous] and
    [playTrack] do nothing, whatever the other fields hold. *)
Theorem empty_playlist_controls (p : Player) (rnd : JS.number) (index : Z) :
  playlist p = [] →
  togglePlay p = ((), p) ∧ next rnd p = ((), p) ∧ previous p = ((), p) ∧
  playTrack index p = ((), p).
Proof.
  intros Hempty. split; [|split; [|split]].
  - unfold togglePlay. unfold_method. by rewrite Hempty.
  - unfold next. unfold_method. by rewrite Hempty.
  - unfold previous. unfold_method. by rewrite Hempty.
  - destruct (playTrack_cases p index) as [[_ H]|(t & _ & Ht & _)]; [done|].
    by rewrite Hempty in Ht.
Qed.

(** X3. [toggleRepeat] steps 'none' to 'one', 'one' to 'all' and 'all' to
    'none'; it returns the new mode and emits it in [repeatchange]; three
    calls bring the mode back. *)
Theorem toggleRepeat_cycle (p : Player) :
  let successor := match repeat p with
                   | RepeatNone => RepeatOne
                   | RepeatOne => RepeatAll
                   | RepeatAll => RepeatNone
                   end in
  result toggleRepeat p = successor ∧
  repeat (exec toggleRepeat p) = successor ∧
  emitted (exec toggleRepeat p) = emitted p ++ [Erepeatchange successor] ∧
  repeat (exec toggleRepeat (exec toggleRepeat (exec toggleRepeat p)))
    = repeat p.
Proof. destruct p as [pl c a pg sh [] st es]; repeat split. Qed.

(** X4. [toggleShuffle] flips the flag, returns the new value and emits
    it in [shufflechange]; two calls restore the flag. *)
Theorem toggleShuffle_twice (p : Player) :
  result toggleShuffle p = negb (shuffle p) ∧
  shuffle (exec toggleShuffle p) = negb (shuffle p) ∧
  shuffle (exec toggleShuffle (exec toggleShuffle p)) = shuffle p ∧
  emitted (exec toggleShuffle (exec toggleShuffle p))
    = emitted p ++ [Eshufflechange (negb (shuffle p));
                    Eshufflechange (shuffle p)].
Proof.
  destruct p as [pl c a pg [] r st es]; repeat split;
    unfold toggleShuffle; unfold_method; cbn; by rewrite <- app_assoc.
Qed.

(** X5. For the whole percentages 0 to 100 the page passes, [setVolume]
    hands the audio element a volume between 0 and 1, with 0 for 0 and 1
    for 100, and a larger percentage never gives a smaller volume. *)
Theorem setVolume_percent (p : Player) (m n : Z) :
  0 ≤ m ≤ n → n ≤ 100 →
  let volume k := audio_volume (audio (exec (setVolume (JS.of_Z k)) p)) in
  JS.le 0%float (volume n) = true ∧ JS.le (volume n) 1%float = true ∧
  JS.le (volume m) (volume n) = true ∧
  volume 0 = 0%float ∧ volume 100 = 1%float.
Proof.
  intros Hm Hn volume.
  assert (Hvol : ∀ k, volume k = volume_at k) by done.
  pose proof volume_checks as Hall. rewrite forallb_forall in Hall.
  pose proof (Hall n (in_seqZ_percent n ltac:(lia))) as Hcheck_n.
  pose proof (Hall m (in_seqZ_percent m ltac:(lia))) as Hcheck_m.
  apply andb_true_iff in Hcheck_n as [Hrange _].
  apply andb_true_iff in Hrange as [Hlow Hhigh].
  apply andb_true_iff in Hcheck_m as [_ Hmono].
  rewrite forallb_forall in Hmono.
  pose proof (Hmono n (in_seqZ_percent n ltac:(lia))) as Hle.
  destruct (Z.leb_spec m n); [|lia]. simpl in Hle.
  rewrite !Hvol. repeat split; done.
Qed.

(** ** Removing tracks *)

Section RemoveTrack.

Context `{!JSON}.

(** [savePlaylist] writes at most one record, under one of its two keys. *)
Lemma savePlaylist_write (p : Player) :
  ∃ st, savePlaylist p = ((), with_localStorage st p) ∧
        playlist_write (localStorage p) st.
Proof.
  unfold savePlaylist.
  destruct (setItem PLAYLIST_KEY _ _) as [st|] eqn:Hfull.
  { exists st. split; [done|]. right. eauto. }
  destruct (setItem PLAYLIST_META_KEY _ _) as [st|] eqn:Hmeta.
  { exists st. split; [done|]. right. eauto 6. }
  exists (localStorage p). split; [by destruct p|by left].
Qed.

Lemma removeTrack_absent (p : Player) (trackId : JS.number) :
  findIndex (λ t, JS.strict_eq (track_id t) trackId) (playlist p) = -1 →
  removeTrack trackId p = ((), p).
Proof. intros Hfind. unfold removeTrack. unfold_method. by rewrite Hfind. Qed.

(** [removeTrack] when the id is found at [index]. *)
Lemma removeTrack_found (p : Player) (trackId : JS.number) (index : Z) :
  findIndex (λ t, JS.strict_eq (track_id t) trackId) (playlist p) = index →
  index ≠ -1 →
  let q := if index =? currentTrackIndex p then exec stop p else p in
  let cursor := if currentTrackIndex q >? index then currentTrackIndex q - 1
                else currentTrackIndex q in
  ∃ st,
    playlist_write (localStorage p) st ∧
    exec (removeTrack trackId) p =
      with_emitted (emitted q ++ [Etrackremoved trackId])
        (with_localStorage st
           (with_currentTrackIndex cursor
              (with_playlist (delete (Z.to_nat index) (playlist p)) q))).
Proof.
  intros Hfind Hfound q cursor.
  unfold removeTrack. unfold_method. rewrite Hfind.
  destruct (Z.eqb_spec index (-1)) as [|_]; [done|].
  subst q cursor.
  destruct (index =? currentTrackIndex p); rewrite ?stop_spec;
    cbn -[savePlaylist];
    match goal with |- context [if ?c >? index then _ else _] =>
      destruct (c >? index) end;
    cbn -[savePlaylist];
    match goal with |- context [savePlaylist ?s] =>
      destruct (savePlaylist_write s) as (st & -> & Hw) end;
    exists st; (split; [exact Hw|reflexivity]).
Qed.

(** X6. [removeTrack] with an id that no track of the list carries does
    nothing: the list, the cursor, the audio element and the store stay
    as they are and no event is emitted. *)
Theorem removeTrack_unknown_id (p : Player) (trackId : JS.number) :
  (∀ t, t ∈ playlist p → JS.strict_eq (track_id t) trackId = false) →
  removeTrack trackId p = ((), p).
Proof.
  intros Hnone. apply removeTrack_absent. by apply findIndex_absent.
Qed.

(** With a cursor that is -1 or an index of the list, [getCurrentTrack]
    reads the list at the cursor. *)
Lemma getCurrentTrack_lookup (p : Player) :
  0 ≤ currentTrackIndex p →
  result getCurrentTrack p = playlist p !! Z.to_nat (currentTrackIndex p).
Proof.
  intros Hge. unfold getCurrentTrack. unfold_method.
  destruct (Z.eqb_spec (currentTrackIndex p) (-1)); [lia|]. simpl.
  destruct (Z.ltb_spec (currentTrackIndex p) 0); [lia|done].
Qed.

Lemma getCurrentTrack_none (p : Player) :
  currentTrackIndex p = -1 → result getCurrentTrack p = None.
Proof.
  intros Hcur. unfold getCurrentTrack. unfold_method. by rewrite Hcur.
Qed.

(** X7. In a list without duplicate ids, removing a track other than the
    one under the cursor leaves the current track current: the cursor
    moves down by one when the removed track came before it and stays
    otherwise, the audio element is not touched, and the only event is
    [trackremoved]. *)
Theorem removeTrack_other_keeps_current (p : Player) (i : nat) (t : Track) :
  no_duplicate_ids (playlist p) = true →
  JS.strict_eq (track_id t) (track_id t) = true →
  playlist p !! i = Some t →
  cursor_in_range p →
  currentTrackIndex p ≠ Z.of_nat i →
  let p' := exec (removeTrack (track_id t)) p in
  result getCurrentTrack p' = result getCurrentTrack p ∧
  currentTrackIndex p' = (if currentTrackIndex p >? Z.of_nat i
                          then currentTrackIndex p - 1
                          else currentTrackIndex p) ∧
  playlist p' = delete i (playlist p) ∧
  audio p' = audio p ∧
  emitted p' = emitted p ++ [Etrackremoved (track_id t)].
Proof.
  intros Hnd Hself Hi Hrange Hother p'.
  pose proof (findIndex_own_id _ _ _ Hnd Hself Hi) as Hfind.
  destruct (removeTrack_found p (track_id t) (Z.of_nat i) Hfind ltac:(lia))
    as (st & _ & Hrun).
  subst p'. rewrite Hrun. clear Hrun.
  destruct (Z.eqb_spec (Z.of_nat i) (currentTrackIndex p)) as [|_]; [lia|].
  rewrite Nat2Z.id. cbn. split; [|done].
  destruct Hrange as [Hnone|[Hge Hlt]].
  - rewrite (getCurrentTrack_none p Hnone).
    apply getCurrentTrack_none. cbn. rewrite Hnone.
    by destruct (Z.gtb_spec (-1) (Z.of_nat i)); [lia|].
  - rewrite (getCurrentTrack_lookup p Hge).
    destruct (Z.gtb_spec (currentTrackIndex p) (Z.of_nat i)) as [Hgt|Hle].
    + rewrite getCurrentTrack_lookup by (cbn; lia). cbn.
      rewrite list_lookup_delete_ge by lia. f_equal. lia.
    + rewrite getCurrentTrack_lookup by (cbn; lia). cbn.
      rewrite list_lookup_delete_lt by lia. done.
Qed.

(** X8. In a list without duplicate ids, [removeTrack] with the id of a
    track of the list shortens the list by that one track; afterwards the
    list is still without duplicates, no track carries the id, and a
    second [removeTrack] with the same id does nothing. *)
Theorem removeTrack_removes_the_id (p : Player) (i : nat) (t : Track) :
  no_duplicate_ids (playlist p) = true →
  JS.strict_eq (track_id t) (track_id t) = true →
  playlist p !! i = Some t →
  let p' := exec (removeTrack (track_id t)) p in
  playlist p' = delete i (playlist p) ∧
  length (playlist p') = (length (playlist p) - 1)%nat ∧
  no_duplicate_ids (playlist p') = true ∧
  (∀ u, u ∈ playlist p' → JS.strict_eq (track_id u) (track_id t) = false) ∧
  removeTrack (track_id t) p' = ((), p').
Proof.
  intros Hnd Hself Hi p'.
  pose proof (findIndex_own_id _ _ _ Hnd Hself Hi) as Hfind.
  destruct (removeTrack_found p (track_id t) (Z.of_nat i) Hfind ltac:(lia))
    as (st & _ & Hrun).
  assert (Hlist : playlist p' = delete i (playlist p)).
  { subst p'. rewrite Hrun, Nat2Z.id.
    by destruct (Z.of_nat i =? currentTrackIndex p). }
  assert (Hgone : ∀ u, u ∈ playlist p' →
            JS.strict_eq (track_id u) (track_id t) = false).
  { intros u Hu. rewrite Hlist in Hu.
    apply list_elem_of_lookup in Hu as [j Hj].
    rewrite list_lookup_delete in Hj.
    destruct (decide (j < i)%nat).
    - apply (no_duplicate_ids_elsewhere _ i j t u Hnd Hi Hj). lia.
    - apply (no_duplicate_ids_elsewhere _ i (S j) t u Hnd Hi Hj). lia. }
  split; [done|]. split; [|split; [|split; [done|]]].
  - rewrite Hlist, length_delete by eauto. done.
  - rewrite Hlist. unfold no_duplicate_ids. rewrite fmap_delete.
    by apply distinct_numbers_delete.
  - apply removeTrack_absent. by apply findIndex_absent.
Qed.

End RemoveTrack.

(** ** Runs *)

Lemma findIndex_bounds {A} (pred : A → bool) (l : list A) :
  findIndex pred l = -1 ∨ 0 ≤ findIndex pred l < Z.of_nat (length l).
Proof.
  induction l as [|x l IH]; simpl; [by left|].
  destruct (pred x); [right; lia|].
  destruct (Z.eqb_spec (findIndex pred l) (-1)); [by left|right; lia].
Qed.

Lemma playback_effect_fields (p p' : Player) :
  playlist p' = playlist p → localStorage p' = localStorage p →
  currentTrackIndex p' = currentTrackIndex p → playback_effect p p'.
Proof. intros. repeat split; auto. Qed.

Lemma playTrack_effect (p : Player) (index : Z) :
  playback_effect p (exec (playTrack index) p).
Proof.
  unfold exec.
  destruct (playTrack_cases p index) as [[_ ->]|(t & Hge & Ht & ->)].
  - by apply playback_effect_fields.
  - apply lookup_lt_Some in Ht. repeat split; simpl. right. right. lia.
Qed.

Lemma stop_effect (p : Player) : playback_effect p (exec stop p).
Proof. repeat split. right. by left. Qed.

Lemma playback_effect_cursor (p p' : Player) :
  playback_effect p p' → cursor_in_range p → cursor_in_range p'.
Proof.
  intros (Hpl & _ & Hcur) Hrange. unfold cursor_in_range in *.
  rewrite Hpl. destruct Hcur as [->|[->|?]]; auto.
Qed.

Lemma keeps_other_records_refl (st : Storage) : keeps_other_records st st.
Proof. by repeat split. Qed.

Lemma keeps_other_records_trans (st1 st2 st3 : Storage) :
  keeps_other_records st1 st2 → keeps_other_records st2 st3 →
  keeps_other_records st1 st3.
Proof.
  intros (Hq1 & Ho1 & Hp1) (Hq2 & Ho2 & Hp2). split; [congruence|]. split.
  - intros k ? ?. rewrite Ho2, Ho1 by done. done.
  - intros k ?. by apply Hp2, Hp1.
Qed.

Lemma playlist_write_keeps (st st' : Storage) :
  playlist_write st st' → keeps_other_records st st'.
Proof.
  intros [->|(k & v & Hk & Hset)]; [apply keeps_other_records_refl|].
  destruct (setItem_Some _ _ _ _ Hset) as [Hitems Hquota].
  unfold keeps_other_records, getItem. rewrite Hitems. split; [done|]. split.
  - intros k' ? ?. apply lookup_insert_ne. destruct Hk; congruence.
  - intros k' Hsome. destruct (decide (k = k')) as [->|Hne].
    + rewrite lookup_insert_eq. by eexists.
    + by rewrite lookup_insert_ne.
Qed.

Section Runs.

Context `{!JSON}.

Lemma push_track_write (t : Track) (p : Player) :
  ∃ st, playlist_write (localStorage p) st ∧
    exec (push_track t) p =
      with_emitted (emitted p ++ [Etrackadded t])
        (with_localStorage st (with_playlist (playlist p ++ [t]) p)).
Proof.
  unfold push_track. unfold_method.
  match goal with |- context [savePlaylist ?s] =>
    destruct (savePlaylist_write s) as (st & -> & Hw) end.
  by exists st.
Qed.

Lemma clearPlaylist_write (p : Player) :
  ∃ st, playlist_write (localStorage p) st ∧
    exec clearPlaylist p =
      with_emitted (emitted p ++ [Estop; Eplaylistcleared])
        (with_localStorage st
           (with_playlist []
              (with_currentTrackIndex (-1)
                 (with_audio
                    (Audio_set_currentTime 0%float (Audio_pause (audio p)))
                    p)))).
Proof.
  unfold exec, clearPlaylist. unfold mbind, Method_bind. rewrite stop_spec.
  unfold_method. cbn -[savePlaylist].
  match goal with |- context [savePlaylist ?s] =>
    destruct (savePlaylist_write s) as (st & -> & Hw) end.
  exists st. split; [done|]. cbn. by rewrite <- app_assoc.
Qed.

(** A playback command changes neither the list nor the store and
    leaves the cursor alone, at -1 or on a track. *)
Lemma step_playback (c : Command) (p : Player) :
  is_playback c = true → playback_effect p (step c p).
Proof.
  intros Hc. destruct c; try discriminate Hc; simpl;
    try (by apply playback_effect_fields);
    try apply playTrack_effect; try apply stop_effect.
  - (* togglePlay *)
    unfold exec, togglePlay. unfold_method.
    destruct (Z.of_nat (length (playlist p)) =? 0);
      [by apply playback_effect_fields|].
    destruct (isPlaying p); [by apply playback_effect_fields|].
    destruct (currentTrackIndex p =? -1);
      [apply playTrack_effect|by apply playback_effect_fields].
  - (* next *)
    unfold exec, next. unfold_method.
    destruct (Z.of_nat (length (playlist p)) =? 0);
      [by apply playback_effect_fields|].
    destruct (shuffle p).
    + destruct (JS.floor _);
        [apply playTrack_effect|by apply playback_effect_fields].
    + destruct (_ >=? _); [|apply playTrack_effect].
      destruct (bool_decide _); [apply playTrack_effect|apply stop_effect].
  - (* previous *)
    unfold exec, previous. unfold_method.
    destruct (Z.of_nat (length (playlist p)) =? 0);
      [by apply playback_effect_fields|].
    destruct (JS.gt _ _); [by apply playback_effect_fields|].
    destruct (_ <? 0); [|apply playTrack_effect].
    destruct (bool_decide _); apply playTrack_effect.
  - (* seek *)
    unfold exec, seek. unfold_method.
    destruct (JS.truthy_number _); by apply playback_effect_fields.
  - (* ended *)
    unfold exec, audio_ended. unfold_method.
    destruct (bool_decide _); [by apply playback_effect_fields|].
    fold (exec (next rnd) p). unfold exec, next. unfold_method.
    destruct (Z.of_nat (length (playlist p)) =? 0);
      [by apply playback_effect_fields|].
    destruct (shuffle p).
    + destruct (JS.floor _);
        [apply playTrack_effect|by apply playback_effect_fields].
    + destruct (_ >=? _); [|apply playTrack_effect].
      destruct (bool_decide _); [apply playTrack_effect|apply stop_effect].
Qed.

Lemma addTrack_exec (now rnd : JS.number) (file : File) (p : Player) :
  exec (addTrack now rnd file) p =
    if JS.truthy (file_path file)
    then exec (push_track (path_track now rnd file)) p else p.
Proof.
  unfold addTrack, exec. destruct (JS.truthy (file_path file)); [|done].
  unfold mbind, Method_bind. by destruct (push_track _ p).
Qed.

(** What the commands that change the list do to list, cursor and
    store. *)
Lemma step_list_command (c : Command) (p : Player) :
  is_playback c = false →
  playlist_write (localStorage p) (localStorage (step c p)) ∧
  (cursor_in_range p → cursor_in_range (step c p)).
Proof.
  intros Hc. destruct c; try discriminate Hc; simpl.
  - rewrite addTrack_exec. destruct (JS.truthy (file_path file)).
    + destruct (push_track_write (path_track now rnd file) p)
        as (st & Hw & ->).
      split; [done|]. unfold cursor_in_range. cbn.
      rewrite length_app. simpl. lia.
    + split; [by left|done].
  - unfold reader_onload.
    destruct (push_track_write (data_track now rnd file dataURL) p)
      as (st & Hw & ->).
    split; [done|]. unfold cursor_in_range. cbn.
    rewrite length_app. simpl. lia.
  - destruct (findIndex_bounds (λ t, JS.strict_eq (track_id t) trackId)
                (playlist p)) as [Habsent|Hfound].
    + unfold exec. rewrite (removeTrack_absent p trackId Habsent).
      split; [by left|done].
    + set (index := findIndex _ _) in *.
      assert (Hidx : index ≠ -1) by lia.
      destruct (removeTrack_found p trackId index eq_refl Hidx)
        as (st & Hw & ->).
      split; [done|]. unfold cursor_in_range. cbn.
      rewrite length_delete
        by (apply lookup_lt_is_Some_2; lia).
      intros Hrange.
      destruct (Z.eqb_spec index (currentTrackIndex p)) as [Heq|Hne]; cbn.
      * change (currentTrackIndex (exec stop p)) with (-1).
        destruct (Z.gtb_spec (-1) index); [lia|]. by left.
      * destruct (Z.gtb_spec (currentTrackIndex p) index); lia.
  - destruct (clearPlaylist_write p) as (st & Hw & ->).
    split; [done|]. by left.
Qed.

Lemma step_cursor_in_range (c : Command) (p : Player) :
  cursor_in_range p → cursor_in_range (step c p).
Proof.
  destruct (is_playback c) eqn:Hc.
  - by apply playback_effect_cursor, step_playback.
  - by apply step_list_command.
Qed.

Lemma step_keeps_other_records (c : Command) (p : Player) :
  keeps_other_records (localStorage p) (localStorage (step c p)).
Proof.
  destruct (is_playback c) eqn:Hc.
  - destruct (step_playback c p Hc) as (_ & -> & _).
    apply keeps_other_records_refl.
  - by apply playlist_write_keeps, step_list_command.
Qed.

Lemma run_snoc (cs : list Command) (c : Command) (p : Player) :
  run (cs ++ [c]) p = step c (run cs p).
Proof. unfold run. by rewrite foldl_app. Qed.

Lemma run_cursor_in_range (cs : list Command) (p : Player) :
  cursor_in_range p → cursor_in_range (run cs p).
Proof.
  intros Hp. induction cs as [|c cs IH] using rev_ind; [done|].
  rewrite run_snoc. by apply step_cursor_in_range.
Qed.

(** X9. From a player whose list holds track objects and whose cursor is
    -1 or an index of that list (the player built over a store without a
    usable record is one), every sequence of method calls, reader
    callbacks, audio events and changes of the audio element leads to a
    state in which the cursor is -1 or the index of a track of the list;
    there [getCurrentTrack] yields [null] exactly when the cursor is -1
    and a track of the list otherwise. *)
Theorem cursor_never_dangles (p0 : Player) (cs : list Command) :
  cursor_in_range p0 →
  let p := run cs p0 in
  cursor_in_range p ∧
  (currentTrackIndex p = -1 → result getCurrentTrack p = None) ∧
  (currentTrackIndex p ≠ -1 →
     ∃ track, result getCurrentTrack p = Some track ∧ track ∈ playlist p).
Proof.
  intros Hstart p.
  pose proof (run_cursor_in_range cs p0 Hstart) as Hrange. fold p in Hrange.
  split; [done|]. split; [apply getCurrentTrack_none|].
  intros Hsel. destruct Hrange as [|[Hge Hlt]]; [done|].
  destruct (lookup_lt_is_Some_2 (playlist p) (Z.to_nat (currentTrackIndex p)))
    as [t Ht]; [lia|].
  exists t. rewrite getCurrentTrack_lookup by done. split; [done|].
  by eapply list_elem_of_lookup_2.
Qed.

(** X10. Whatever happens to the player, it never removes a record from
    [localStorage] and changes none but those under its two keys,
    'pomop-music-playlist' and 'pomop-music-playlist-meta'. *)
Theorem other_records_untouched (cs : list Command) (p : Player) :
  keeps_other_records (localStorage p) (localStorage (run cs p)).
Proof.
  induction cs as [|c cs IH] using rev_ind;
    [apply keeps_other_records_refl|].
  rewrite run_snoc.
  eapply keeps_other_records_trans; [exact IH|].
  apply step_keeps_other_records.
Qed.

(** X11. Playing, pausing, stopping, skipping, seeking, the volume and
    mode controls, the events of the audio element and a failed
    [FileReader] never change the list of tracks and never write to
    [localStorage]: only [addTrack] with its [onload], [removeTrack] and
    [clearPlaylist] do. *)
Theorem playback_keeps_list_and_store (cs : list Command) (p : Player) :
  forallb is_playback cs = true →
  playlist (run cs p) = playlist p ∧ localStorage (run cs p) = localStorage p.
Proof.
  induction cs as [|c cs IH] using rev_ind; [done|].
  rewrite forallb_app, andb_true_iff. simpl. rewrite andb_true_r.
  intros [Hcs Hc]. rewrite run_snoc.
  destruct (step_playback c (run cs p) Hc) as (-> & -> & _).
  by apply IH.
Qed.

End Runs.

(** ** Adding and walking through tracks *)

Lemma trackchanges_S (pl : list Track) (first : Z) (count : nat) (t : Track) :
  0 ≤ first + Z.of_nat count →
  pl !! Z.to_nat (first + Z.of_nat count) = Some t →
  trackchanges pl first (S count)
  = trackchanges pl first count ++ [Etrackchange t (first + Z.of_nat count)].
Proof.
  intros Hge Ht. unfold trackchanges.
  rewrite seqZ_S, omap_app. simpl. by rewrite Ht.
Qed.

(** ['ended'] outside repeat 'one' and shuffle: the next track while there
    is one. *)
Lemma ended_advance (rnd : JS.number) (p : Player) :
  shuffle p = false → repeat p ≠ RepeatOne →
  currentTrackIndex p + 1 < Z.of_nat (length (playlist p)) →
  -1 ≤ currentTrackIndex p →
  audio_ended rnd p = playTrack (currentTrackIndex p + 1) p ∧
  next rnd p = playTrack (currentTrackIndex p + 1) p.
Proof.
  intros Hsh Hr Hlt Hge.
  assert (Hnext : next rnd p = playTrack (currentTrackIndex p + 1) p).
  { unfold next. unfold_method.
    destruct (Z.eqb_spec (Z.of_nat (length (playlist p))) 0); [lia|].
    rewrite Hsh.
    by destruct (Z.geb_spec (currentTrackIndex p + 1)
                   (Z.of_nat (length (playlist p)))); [lia|]. }
  split; [|done]. unfold audio_ended. unfold_method.
  by rewrite bool_decide_eq_false_2.
Qed.

(** ['ended'] outside repeat 'one' and shuffle on the last track. *)
Lemma ended_at_end (rnd : JS.number) (p : Player) :
  shuffle p = false → repeat p ≠ RepeatOne → playlist p ≠ [] →
  Z.of_nat (length (playlist p)) ≤ currentTrackIndex p + 1 →
  audio_ended rnd p =
    (if bool_decide (repeat p = RepeatAll) then playTrack 0 else stop) p.
Proof.
  intros Hsh Hr Hne Hlast. unfold audio_ended. unfold_method.
  rewrite bool_decide_eq_false_2 by done.
  unfold next. unfold_method.
  pose proof (nonempty_length _ Hne).
  destruct (Z.eqb_spec (Z.of_nat (length (playlist p))) 0); [lia|].
  rewrite Hsh.
  by destruct (Z.geb_spec (currentTrackIndex p + 1)
                 (Z.of_nat (length (playlist p)))); [|lia].
Qed.

(** The player after [k] tracks have ended one after the other, while
    tracks remain. *)
Lemma ended_times_walk (rnd : JS.number) (p : Player) (k : nat) :
  shuffle p = false → repeat p ≠ RepeatOne →
  -1 ≤ currentTrackIndex p →
  currentTrackIndex p + Z.of_nat k < Z.of_nat (length (playlist p)) →
  let p' := ended_times k rnd p in
  playlist p' = playlist p ∧ shuffle p' = shuffle p ∧ repeat p' = repeat p ∧
  currentTrackIndex p' = currentTrackIndex p + Z.of_nat k ∧
  emitted p' = emitted p
                 ++ trackchanges (playlist p) (currentTrackIndex p + 1) k.
Proof.
  intros Hsh Hr Hge. induction k as [|k IH]; intros Hlt p'.
  - subst p'. simpl. repeat split; [lia|by rewrite app_nil_r].
  - destruct (IH ltac:(lia)) as (Hpl & Hsh' & Hr' & Hcur & Hev).
    subst p'. unfold ended_times in *. simpl.
    set (q := Nat.iter k (exec (audio_ended rnd)) p) in *.
    destruct (ended_advance rnd q) as [Hstep _];
      [congruence|congruence|rewrite Hpl, Hcur; lia|lia|].
    unfold exec at 1 2 3 4 5. rewrite Hstep.
    destruct (lookup_lt_is_Some_2 (playlist q)
                (Z.to_nat (currentTrackIndex q + 1))) as [t Ht];
      [rewrite Hpl; lia|].
    rewrite (playTrack_valid q _ t) by (done || lia). cbn.
    repeat split; try done; [lia|].
    rewrite Hev, <- app_assoc. f_equal.
    rewrite (trackchanges_S _ _ _ t); [|lia|].
    + do 3 f_equal. lia.
    + rewrite <- Hpl, <- Ht. f_equal. lia.
Qed.

(** X12. A sequence of awaited [addTrack] calls appends the tracks of
    the calls that succeed to the end of the list, in call order, and
    emits one [trackadded] for each; a call whose read fails adds
    nothing. The cursor and the audio element are not touched. *)
Theorem addTracks_appends `{!JSON} (cs : list AddCall) (p : Player) :
  playlist (addTracks cs p) = playlist p ++ tracks_added cs ∧
  emitted (addTracks cs p) = emitted p ++ (Etrackadded <$> tracks_added cs) ∧
  currentTrackIndex (addTracks cs p) = currentTrackIndex p ∧
  audio (addTracks cs p) = audio p.
Proof.
  revert p. induction cs as [|c cs IH]; intros p.
  { simpl. by rewrite !app_nil_r. }
  unfold addTracks in *. simpl.
  assert (Hone : exec (addTrack_await c) p =
            match track_added c with
            | Some t => exec (push_track t) p
            | None => p
            end).
  { unfold addTrack_await, track_added, addTrack, reader_onload, exec.
    destruct (JS.truthy (file_path (call_file c))).
    - unfold mbind, Method_bind. by destruct (push_track _ p).
    - unfold_method. by destruct (call_read c). }
  rewrite Hone. unfold tracks_added. simpl.
  destruct (track_added c) as [t|]; [|apply IH].
  destruct (push_track_spec t p) as [st Hpush].
  set (q := with_emitted (emitted p ++ [Etrackadded t])
              (with_localStorage st (with_playlist (playlist p ++ [t]) p))).
  assert (Hq : exec (push_track t) p = q) by (unfold exec; by rewrite Hpush).
  rewrite Hq. destruct (IH q) as (-> & -> & -> & ->).
  subst q. cbn. by rewrite <- !app_assoc.
Qed.

(** X13. With shuffle off and a track after the cursor, [next] plays
    that track: the cursor moves up by one (from -1 to the first track),
    the audio element gets the source of the track and [trackchange]
    names it. *)
Theorem next_advances (rnd : JS.number) (p : Player) :
  shuffle p = false →
  -1 ≤ currentTrackIndex p →
  currentTrackIndex p + 1 < Z.of_nat (length (playlist p)) →
  ∃ track,
    playlist p !! Z.to_nat (currentTrackIndex p + 1) = Some track ∧
    currentTrackIndex (exec (next rnd) p) = currentTrackIndex p + 1 ∧
    audio_src (audio (exec (next rnd) p)) = source_of track ∧
    audio_paused (audio (exec (next rnd) p)) = false ∧
    emitted (exec (next rnd) p)
      = emitted p ++ [Etrackchange track (currentTrackIndex p + 1)].
Proof.
  intros Hsh Hge Hlt.
  assert (Hnext : next rnd p = playTrack (currentTrackIndex p + 1) p).
  { unfold next. unfold_method.
    destruct (Z.eqb_spec (Z.of_nat (length (playlist p))) 0); [lia|].
    rewrite Hsh.
    by destruct (Z.geb_spec (currentTrackIndex p + 1)
                   (Z.of_nat (length (playlist p)))); [lia|]. }
  destruct (lookup_lt_is_Some_2 (playlist p)
              (Z.to_nat (currentTrackIndex p + 1))) as [t Ht]; [lia|].
  exists t. split; [done|]. unfold exec.
  by rewrite Hnext, (playTrack_valid p _ t) by (done || lia).
Qed.

(** X14. With shuffle off and repeat 'none' or 'all', letting the
    tracks end one after the other from the cursor announces every later
    track in list order with [trackchange]; when the last track ends,
    repeat 'none' stops (cursor -1, [stop] emitted) and repeat 'all'
    starts again at the first track. *)
Theorem ended_plays_through (rnd : JS.number) (p : Player) (k : nat) :
  shuffle p = false → repeat p ≠ RepeatOne →
  0 ≤ currentTrackIndex p →
  currentTrackIndex p + Z.of_nat k + 1 = Z.of_nat (length (playlist p)) →
  let later := trackchanges (playlist p) (currentTrackIndex p + 1) k in
  let p' := ended_times (S k) rnd p in
  playlist p' = playlist p ∧
  emitted (ended_times k rnd p) = emitted p ++ later ∧
  (repeat p = RepeatNone →
     currentTrackIndex p' = -1 ∧ audio_paused (audio p') = true ∧
     emitted p' = emitted p ++ later ++ [Estop]) ∧
  (repeat p = RepeatAll →
     currentTrackIndex p' = 0 ∧ audio_paused (audio p') = false ∧
     ∃ first, playlist p !! 0%nat = Some first ∧
       emitted p' = emitted p ++ later ++ [Etrackchange first 0]).
Proof.
  intros Hsh Hr Hge Hlen later p'.
  destruct (ended_times_walk rnd p k Hsh Hr ltac:(lia) ltac:(lia))
    as (Hpl & Hsh' & Hr' & Hcur & Hev). fold later in Hev.
  subst p'. unfold ended_times in *. simpl.
  set (q := Nat.iter k (exec (audio_ended rnd)) p) in *.
  assert (Hne : playlist q ≠ []).
  { rewrite Hpl. intros E. rewrite E in Hlen. simpl in Hlen. lia. }
  pose proof (ended_at_end rnd q ltac:(congruence) ltac:(congruence) Hne
                ltac:(rewrite Hpl, Hcur; lia)) as Hlast.
  unfold exec at 1 2 3 4 5 6 7. rewrite Hlast, Hr'.
  split; [|split; [done|split]].
  - destruct (bool_decide (repeat p = RepeatAll)).
    + destruct (playTrack_cases q 0) as [[_ ->]|(t & _ & _ & ->)];
        [done|by rewrite <- Hpl].
    + by rewrite stop_spec.
  - intros Hnone. rewrite bool_decide_eq_false_2 by congruence.
    rewrite stop_spec. cbn. repeat split. by rewrite Hev, <- app_assoc.
  - intros Hall. rewrite bool_decide_eq_true_2 by done.
    destruct (playlist q) as [|t0 pl] eqn:Hq; [done|].
    rewrite (playTrack_valid q 0 t0) by (done || by rewrite Hq).
    cbn. repeat split. exists t0. split; [by rewrite <- Hpl|].
    by rewrite Hev, <- app_assoc.
Qed.

(** X15. Under repeat 'one', however often the track ends, the cursor and
    the list stay, no event is emitted, and after each ending the audio
    element is rewound and playing again. *)
Theorem ended_repeats_one (rnd : JS.number) (p : Player) (k : nat) :
  repeat p = RepeatOne →
  let p' := ended_times (S k) rnd p in
  currentTrackIndex p' = currentTrackIndex p ∧ playlist p' = playlist p ∧
  emitted p' = emitted p ∧ audio_src (audio p') = audio_src (audio p) ∧
  audio_currentTime (audio p') = 0%float ∧ audio_paused (audio p') = false.
Proof.
  intros Hr.
  assert (Hstep : ∀ q : Player, repeat q = RepeatOne →
            exec (audio_ended rnd) q =
              with_audio
                (Audio_play (Audio_set_currentTime 0%float (audio q))) q).
  { intros q Hq. unfold exec, audio_ended. unfold_method. by rewrite Hq. }
  assert (Hiter : ∀ n, let q := ended_times n rnd p in
            repeat q = RepeatOne ∧ currentTrackIndex q = currentTrackIndex p ∧
            playlist q = playlist p ∧ emitted q = emitted p ∧
            audio_src (audio q) = audio_src (audio p)).
  { induction n as [|n IH]; [done|].
    destruct IH as (Hq & ? & ? & ? & ?). unfold ended_times in *. simpl.
    rewrite (Hstep _ Hq). by repeat split. }
  destruct (Hiter k) as (Hq & ? & ? & ? & ?).
  intros p'. subst p'. unfold ended_times in *. simpl.
  rewrite (Hstep _ Hq). by repeat split.
Qed.

(** ** Pausing, clearing, the current track *)

(** X16. While a track is playing, [togglePlay] pauses; once the audio
    element has reported the pause, a second [togglePlay] resumes. After
    the element has reported playing again the player is on the same
    track, with the same source and at the same position, and the events
    were [pause] and [play] with the index of that track. *)
Theorem pause_resume_keeps_track `{!JSON} (p : Player) :
  playlist p ≠ [] → isPlaying p = true → currentTrackIndex p ≠ -1 →
  let p' := run [Call_togglePlay; On_pause; Call_togglePlay; On_play] p in
  currentTrackIndex p' = currentTrackIndex p ∧ playlist p' = playlist p ∧
  isPlaying p' = true ∧ audio_paused (audio p') = false ∧
  audio_src (audio p') = audio_src (audio p) ∧
  audio_currentTime (audio p') = audio_currentTime (audio p) ∧
  emitted p' = emitted p ++ [Epause (currentTrackIndex p);
                             Eplay (currentTrackIndex p)].
Proof.
  intros Hne Hplaying Hsel p'. subst p'. unfold run. simpl.
  pose proof (nonempty_length _ Hne) as Hlen.
  assert (Hpause : exec togglePlay p = with_audio (Audio_pause (audio p)) p).
  { unfold exec, togglePlay. unfold_method.
    destruct (Z.eqb_spec (Z.of_nat (length (playlist p))) 0); [lia|].
    by rewrite Hplaying. }
  rewrite Hpause.
  set (q := exec audio_pause_event (with_audio (Audio_pause (audio p)) p)).
  assert (Hresume : exec togglePlay q = with_audio (Audio_play (audio q)) q).
  { unfold exec, togglePlay. unfold_method.
    change (playlist q) with (playlist p).
    destruct (Z.eqb_spec (Z.of_nat (length (playlist p))) 0); [lia|].
    change (isPlaying q) with false. cbn.
    change (currentTrackIndex q) with (currentTrackIndex p).
    by destruct (Z.eqb_spec (currentTrackIndex p) (-1)). }
  rewrite Hresume. subst q.
  unfold exec, audio_play_event, audio_pause_event. unfold_method. cbn.
  repeat split. by rewrite <- app_assoc.
Qed.

(** X17. [clearPlaylist] leaves an empty list, the cursor at -1 and the
    audio element paused and rewound, and emits [stop] and then
    [playlistcleared]; afterwards there is no current track and
    [togglePlay], [next] and [previous] do nothing. *)
Theorem clearPlaylist_resets `{!JSON} (p : Player) (rnd : JS.number) :
  let p' := exec clearPlaylist p in
  playlist p' = [] ∧ currentTrackIndex p' = -1 ∧
  audio_paused (audio p') = true ∧ audio_currentTime (audio p') = 0%float ∧
  emitted p' = emitted p ++ [Estop; Eplaylistcleared] ∧
  result getCurrentTrack p' = None ∧
  togglePlay p' = ((), p') ∧ next rnd p' = ((), p') ∧ previous p' = ((), p').
Proof.
  intros p'. destruct (clearPlaylist_write p) as (st & _ & Hclear).
  subst p'. rewrite Hclear. repeat split.
Qed.

(** X18. After [playTrack] with an index of the list, [getCurrentTrack]
    returns the track at that index; after [stop] it returns [null]. *)
Theorem getCurrentTrack_follows_playTrack (p : Player) (index : Z) :
  0 ≤ index < Z.of_nat (length (playlist p)) →
  result getCurrentTrack (exec (playTrack index) p)
    = playlist p !! Z.to_nat index ∧
  is_Some (result getCurrentTrack (exec (playTrack index) p)) ∧
  result getCurrentTrack (exec stop (exec (playTrack index) p)) = None.
Proof.
  intros [Hge Hlt].
  destruct (lookup_lt_is_Some_2 (playlist p) (Z.to_nat index)) as [t Ht];
    [lia|].
  assert (Hcur : result getCurrentTrack (exec (playTrack index) p)
                 = playlist p !! Z.to_nat index).
  { rewrite getCurrentTrack_lookup;
      unfold exec; rewrite (playTrack_valid p index t Hge Ht); done. }
  split; [done|]. split; [rewrite Hcur, Ht; by eexists|].
  by apply getCurrentTrack_none.
Qed.

(** X19. A track added from a handle with a path is played from that
    path, and a track read by the [FileReader] from its data URL: after
    an awaited [addTrack] that succeeds, [playTrack] at the new last
    index moves the cursor there and assigns that source. *)
Theorem added_track_plays_from_its_source `{!JSON} (c : AddCall) (p : Player)
    (track : Track) :
  track_added c = Some track →
  let index := Z.of_nat (length (playlist p)) in
  let p' := exec (playTrack index) (exec (addTrack_await c) p) in
  currentTrackIndex p' = index ∧
  result getCurrentTrack p' = Some track ∧
  (JS.truthy (file_path (call_file c)) = true →
     audio_src (audio p') = file_path (call_file c)) ∧
  (∀ dataURL, JS.truthy (file_path (call_file c)) = false →
     call_read c = ReadOk dataURL → audio_src (audio p') = Some dataURL).
Proof.
  intros Hadded index p'.
  assert (Hone : exec (addTrack_await c) p = exec (push_track track) p).
  { unfold addTrack_await, track_added, addTrack, reader_onload, exec in *.
    destruct (JS.truthy (file_path (call_file c))).
    - injection Hadded as <-. unfold mbind, Method_bind.
      by destruct (push_track _ p).
    - unfold_method. destruct (call_read c); [|done].
      by injection Hadded as <-. }
  destruct (push_track_spec track p) as [st Hpush].
  assert (Hq : exec (push_track track) p =
            with_emitted (emitted p ++ [Etrackadded track])
              (with_localStorage st
                 (with_playlist (playlist p ++ [track]) p)))
    by (unfold exec; by rewrite Hpush).
  subst p'. rewrite Hone, Hq.
  set (q := with_emitted _ _).
  assert (Hlook : playlist q !! Z.to_nat index = Some track).
  { subst q index. cbn. rewrite Nat2Z.id.
    by rewrite lookup_app_r, Nat.sub_diag by lia. }
  assert (Hplay := playTrack_valid q index track ltac:(lia) Hlook).
  split; [unfold exec; by rewrite Hplay|].
  split.
  { rewrite getCurrentTrack_lookup; unfold exec; rewrite Hplay; cbn; [|lia].
    exact Hlook. }
  unfold exec. rewrite Hplay. cbn. unfold track_added in Hadded. split.
  - intros Hpath. rewrite Hpath in Hadded. injection Hadded as <-.
    unfold source_of. cbn. by rewrite Hpath.
  - intros d Hpath Hread. rewrite Hpath, Hread in Hadded.
    by injection Hadded as <-.
Qed.

(** X20. In a list without duplicate ids, [renderPlaylist] marks exactly
    the item under the cursor as active; without a current track it marks
    none. *)
Theorem isActive_marks_the_current_track (p : Player) (j : nat)
    (current item : Track) :
  no_duplicate_ids (playlist p) = true →
  JS.strict_eq (track_id current) (track_id current) = true →
  0 ≤ currentTrackIndex p →
  playlist p !! Z.to_nat (currentTrackIndex p) = Some current →
  playlist p !! j = Some item →
  (isActive p item = true ↔ Z.of_nat j = currentTrackIndex p) ∧
  isActive (exec stop p) item = false.
Proof.
  intros Hnd Hself Hge Hcur Hj. split; [|done].
  unfold isActive. rewrite getCurrentTrack_lookup, Hcur by done. split.
  - intros Hactive.
    destruct (decide (j = Z.to_nat (currentTrackIndex p))) as [->|Hne]; [lia|].
    rewrite (no_duplicate_ids_elsewhere _ j _ item current Hnd Hj Hcur)
      in Hactive; [done|congruence].
  - intros Heq. assert (j = Z.to_nat (currentTrackIndex p)) as -> by lia.
    rewrite Hcur in Hj. by injection Hj as <-.
Qed.

(** ** The upload handler *)

Section Upload.

Context `{!JSON}.




End Upload.

(** ** Before the metadata has arrived *)

Lemma div_nan (x : JS.number) : PrimFloat.div x PrimFloat.nan = PrimFloat.nan.
Proof.
  apply FloatAxioms.Prim2SF_inj. rewrite FloatAxioms.div_spec.
  change (Prim2SF PrimFloat.nan) with SpecFloat.S754_nan.
  unfold FloatAxioms.SF64div, SpecFloat.SFdiv.
  by destruct (Prim2SF x) as [[]|[]| |].
Qed.

(** X22. While the audio element does not know the duration ([NaN], as
    for a new element), [seek] does nothing and every [timeupdate] the
    player emits carries the duration [NaN] and the progress [NaN]. *)
Theorem unknown_duration (p : Player) (percentage : JS.number) :
  audio_duration (audio p) = PrimFloat.nan →
  seek percentage p = ((), p) ∧
  emitted (exec audio_timeupdate p)
    = emitted p ++ [Etimeupdate (audio_currentTime (audio p))
                      PrimFloat.nan PrimFloat.nan].
Proof.
  intros Hnan. split.
  - unfold seek. unfold_method. by rewrite Hnan.
  - unfold exec, audio_timeupdate. unfold_method. cbn.
    by rewrite Hnan, div_nan.
Qed.

(** ** The constructor *)

(** X23. Over a store whose primary record is missing, is the empty
    string or does not parse, [new MusicPlayer()] gives the player with an
    empty list, no track selected, nothing playing, shuffle off and
    repeat 'none'; the store is left as it is. *)
Theorem new_player_without_record `{!JSON} (st : Storage) :
  getItem PLAYLIST_KEY st = None ∨
  getItem PLAYLIST_KEY st = Some "" ∨
  (∃ stored, getItem PLAYLIST_KEY st = Some stored ∧
             JSON_parse stored = None) →
  MusicPlayer_new st =
    Some {| playlist := []; currentTrackIndex := -1; audio := Audio_new;
            isPlaying := false; shuffle := false; repeat := RepeatNone;
            localStorage := st; emitted := [] |}.
Proof.
  unfold MusicPlayer_new, loadPlaylist. simpl.
  intros [->|[->|(stored & -> & Hbad)]]; [done|done|].
  rewrite Hbad. by destruct (JS.truthy_string stored).
Qed.

(** ** The event emitter *)

(** None of the names under which the player emits is inherited. *)
Lemma event_name_not_inherited (e : Event) :
  Emitter.inherited (event_name e) = false.
Proof. by destruct e. Qed.

Section EmitterFacts.

Context {D S : Type}.
Implicit Types (cb : @Emitter.callback D S).
Implicit Types (listeners : gmap string (list (@Emitter.callback D S))).

Lemma emit_subscribers (event : string) (data : D) listeners (s : S) :
  Emitter.inherited event = false →
  Emitter.emit event data listeners s
  = Some (foldl (λ s' cb, cb data s') s (Emitter.subscribers event listeners)).
Proof.
  intros Hown. unfold Emitter.emit, Emitter.subscribers. rewrite Hown.
  by destruct (listeners !! event).
Qed.

Lemma on_each_subscribers (event : string)
    (cbs : list (@Emitter.callback D S)) listeners :
  Emitter.inherited event = false →
  ∃ subscribed,
    Emitter.on_each event cbs listeners = Some subscribed ∧
    Emitter.subscribers event subscribed = Emitter.subscribers event listeners ++ cbs ∧
    ∀ other, other ≠ event → subscribed !! other = listeners !! other.
Proof.
  intros Hown. induction cbs as [|cb cbs IH] using rev_ind.
  { exists listeners. by rewrite app_nil_r. }
  destruct IH as (mid & Hmid & Hsubs & Hother).
  exists (<[event := Emitter.subscribers event mid ++ [cb]]> mid).
  unfold Emitter.on_each in *. rewrite foldl_app. simpl. rewrite Hmid. simpl.
  unfold Emitter.on. rewrite Hown. split; [done|]. split.
  - unfold Emitter.subscribers at 1. rewrite lookup_insert_eq. simpl.
    by rewrite Hsubs, <- app_assoc.
  - intros other Hne. rewrite lookup_insert_ne by done. by apply Hother.
Qed.

(** X24. For an event name that an object does not inherit from
    [Object.prototype] (every name the player emits under is such a
    name), [on] subscribes and [emit] calls the subscribers of the event
    in the order in which they subscribed, each with the same payload,
    after the subscribers that were there before; subscribers of another
    event are not called, and without subscribers [emit] does nothing.
    Under an inherited name, such as 'constructor' or 'toString', [on] and
    [emit] throw. *)
Theorem emit_in_subscription_order (event : string) (data : D)
    (cbs : list (@Emitter.callback D S)) listeners (s : S) :
  Emitter.inherited event = false →
  (∃ subscribed before,
     Emitter.on_each event cbs listeners = Some subscribed ∧
     Emitter.emit event data listeners s = Some before ∧
     Emitter.emit event data subscribed s
       = Some (foldl (λ s' cb, cb data s') before cbs) ∧
     ∀ other, other ≠ event →
       Emitter.emit other data subscribed s
         = Emitter.emit other data listeners s) ∧
  Emitter.emit event data (∅ : gmap string (list (@Emitter.callback D S))) s
    = Some s ∧
  (∀ name cb, Emitter.inherited name = true →
     Emitter.on name cb listeners = None ∧
     Emitter.emit name data listeners s = None) ∧
  (∀ e : Event, Emitter.inherited (event_name e) = false).
Proof.
  intros Hown. split; [|split; [|split]].
  - destruct (on_each_subscribers event cbs listeners Hown)
      as (subscribed & Hsub & Hsubs & Hother).
    exists subscribed,
      (foldl (λ s' cb, cb data s') s (Emitter.subscribers event listeners)).
    split; [done|]. split; [by apply emit_subscribers|]. split.
    + by rewrite emit_subscribers, Hsubs, foldl_app.
    + intros other Hne. specialize (Hother other Hne).
      unfold Emitter.emit, Emitter.callback in *. by rewrite Hother.
  - by rewrite emit_subscribers.
  - intros name cb Hname. unfold Emitter.on, Emitter.emit. by rewrite Hname.
  - apply event_name_not_inherited.
Qed.

End EmitterFacts.

(** ** File names *)

Lemma list_ascii_of_string_app (a b : string) :
  list_ascii_of_string (a +:+ b)
  = list_ascii_of_string a ++ list_ascii_of_string b.
Proof. induction a as [|c a IH]; simpl; [done|]. by rewrite IH. Qed.

Lemma ext_chars_extension (ext rest : list ascii) :
  forallb is_ext_char ext = true →
  ext_chars (ext ++ "."%char :: rest) = Some (length ext).
Proof.
  induction ext as [|c ext IH]; simpl; [done|].
  intros [Hc Hext]%andb_true_iff. rewrite Hc.
  unfold is_ext_char in Hc. apply andb_true_iff in Hc as [_ Hdot].
  apply negb_true_iff in Hdot. rewrite Hdot, (IH Hext). done.
Qed.

Lemma ext_chars_no_dot (cs : list ascii) :
  forallb (λ c, negb (Ascii.eqb c "."%char)) cs = true → ext_chars cs = None.
Proof.
  induction cs as [|c cs IH]; simpl; [done|].
  intros [Hc Hcs]%andb_true_iff. apply negb_true_iff in Hc. rewrite Hc.
  rewrite (IH Hcs). by destruct (is_ext_char c).
Qed.

Lemma forallb_rev {A} (f : A → bool) (l : list A) :
  forallb f (rev l) = forallb f l.
Proof.
  induction l as [|a l IH]; simpl; [done|].
  rewrite forallb_app, IH. simpl. rewrite andb_true_r. apply andb_comm.
Qed.

(** X25. The display name of a track is its file name without the final
    extension: for an extension of one or more characters other than [.]
    and [/], the name of [base.ext] is [base], whatever [base] holds; a
    file name without any dot is kept whole. *)
Theorem strip_extension_drops_the_extension (base ext name : string) :
  ext ≠ "" →
  forallb is_ext_char (list_ascii_of_string ext) = true →
  forallb (λ c, negb (Ascii.eqb c "."%char)) (list_ascii_of_string name)
    = true →
  strip_extension (base +:+ "." +:+ ext) = base ∧
  strip_extension name = name.
Proof.
  intros Hext Hchars Hnodot. split.
  - unfold strip_extension.
    rewrite !list_ascii_of_string_app. simpl.
    set (b := list_ascii_of_string base).
    set (e := list_ascii_of_string ext) in *.
    rewrite rev_app_distr. simpl. rewrite <- app_assoc. simpl.
    rewrite ext_chars_extension by (by rewrite forallb_rev).
    rewrite length_rev.
    destruct e as [|c e'] eqn:He.
    { destruct ext; [done|discriminate He]. }
    simpl length. rewrite length_app. simpl length.
    replace (length b + S (S (length e')) - S (S (length e')))%nat
      with (length b) by lia.
    rewrite take_app_length. subst b.
    apply string_of_list_ascii_of_string.
  - unfold strip_extension.
    by rewrite ext_chars_no_dot by (by rewrite forallb_rev).
Qed.

(** X26. The type check of the upload handler passes a file by its name
    alone when the name ends in [.mp3], [.wav] or [.ogg] in any mix of
    upper and lower case, whatever its MIME type is. *)
Theorem audio_extension_passes_type_check (f : UploadFile)
    (base ext : string) :
  file_name (call_file (upload_call f)) = base +:+ ext →
  String.length ext = 4%nat →
  string_of_list_ascii (to_lower <$> list_ascii_of_string ext)
    ∈ [".mp3"; ".wav"; ".ogg"] →
  has_audio_extension (base +:+ ext) = true ∧ wrong_type f = false.
Proof.
  intros Hname Hlen Hext.
  assert (Hhas : has_audio_extension (base +:+ ext) = true).
  { unfold has_audio_extension. rewrite list_ascii_of_string_app.
    rewrite length_app.
    assert (Hl : length (list_ascii_of_string ext) = 4%nat).
    { rewrite <- Hlen. clear. induction ext; simpl; [done|]. by rewrite IHext. }
    rewrite Hl.
    replace (length (list_ascii_of_string base) + 4 - 4)%nat
      with (length (list_ascii_of_string base)) by lia.
    rewrite drop_app_length. by apply bool_decide_eq_true_2. }
  split; [done|]. unfold wrong_type. rewrite Hname, Hhas.
  apply andb_false_r.
Qed.

(** ** Starting and stepping back *)

(** X27. With tracks in the list, nothing playing and no track
    selected, [togglePlay] starts the first track: the cursor becomes 0,
    the audio element gets its source and [trackchange] names it. *)
Theorem togglePlay_starts_the_first_track (p : Player) :
  playlist p ≠ [] → isPlaying p = false → currentTrackIndex p = -1 →
  ∃ first, playlist p !! 0%nat = Some first ∧
    currentTrackIndex (exec togglePlay p) = 0 ∧
    audio_src (audio (exec togglePlay p)) = source_of first ∧
    audio_paused (audio (exec togglePlay p)) = false ∧
    emitted (exec togglePlay p) = emitted p ++ [Etrackchange first 0].
Proof.
  intros Hne Hidle Hnone.
  pose proof (nonempty_length _ Hne) as Hlen.
  assert (Htoggle : togglePlay p = playTrack 0 p).
  { unfold togglePlay. unfold_method.
    destruct (Z.eqb_spec (Z.of_nat (length (playlist p))) 0); [lia|].
    by rewrite Hidle, Hnone. }
  destruct (playlist p) as [|t0 pl] eqn:Hpl; [done|].
  exists t0. split; [done|]. unfold exec.
  by rewrite Htoggle, (playTrack_valid p 0 t0) by (done || by rewrite Hpl).
Qed.

(** X28. More than 3 seconds into a track, [previous] only rewinds the
    audio element: cursor, source and paused state stay and no event is
    emitted. At most 3 seconds in, with a track before the cursor, it
    plays that track. *)
Theorem previous_rewinds_or_steps_back (p : Player) :
  playlist p ≠ [] → cursor_in_range p →
  (JS.gt (audio_currentTime (audio p)) 3%float = true →
     exec previous p
       = with_audio (Audio_set_currentTime 0%float (audio p)) p) ∧
  (JS.le (audio_currentTime (audio p)) 3%float = true →
   1 ≤ currentTrackIndex p →
     ∃ before,
       playlist p !! Z.to_nat (currentTrackIndex p - 1) = Some before ∧
       currentTrackIndex (exec previous p) = currentTrackIndex p - 1 ∧
       audio_src (audio (exec previous p)) = source_of before ∧
       emitted (exec previous p)
         = emitted p ++ [Etrackchange before (currentTrackIndex p - 1)]).
Proof.
  intros Hne Hrange. pose proof (nonempty_length _ Hne) as Hlen. split.
  - intros Hgt. unfold exec, previous. unfold_method.
    destruct (Z.eqb_spec (Z.of_nat (length (playlist p))) 0); [lia|].
    by rewrite Hgt.
  - intros Hle Hcur. destruct Hrange as [|[_ Hlt]]; [lia|].
    assert (Hprev : previous p = playTrack (currentTrackIndex p - 1) p).
    { unfold previous. unfold_method.
      destruct (Z.eqb_spec (Z.of_nat (length (playlist p))) 0); [lia|].
      rewrite (le_not_gt _ _ Hle).
      by destruct (Z.ltb_spec (currentTrackIndex p - 1) 0); [lia|]. }
    destruct (lookup_lt_is_Some_2 (playlist p)
                (Z.to_nat (currentTrackIndex p - 1))) as [t Ht]; [lia|].
    exists t. split; [done|]. unfold exec.
    by rewrite Hprev, (playTrack_valid p _ t) by (done || lia).
Qed.

(** ** The further properties at concrete inputs *)

Section MoreConcrete.

Local Existing Instance Sample.codec.

Lemma removeTrack_unknown_id_witness :
  removeTrack 42%float Sample.player = ((), Sample.player).
Proof.
  apply (removeTrack_unknown_id Sample.player 42%float).
  intros t Ht. apply list_elem_of_In in Ht.
  destruct Ht as [<-|[<-|[]]]; reflexivity.
Defined.

Lemma removeTrack_other_keeps_current_witness :
  cursor_in_range Sample.player ∧
  result getCurrentTrack
    (exec (removeTrack (track_id Sample.trackA)) Sample.player)
  = Some Sample.trackB ∧
  currentTrackIndex
    (exec (removeTrack (track_id Sample.trackA)) Sample.player) = 0.
Proof.
  assert (Hrange : cursor_in_range Sample.player) by (right; simpl; lia).
  split; [exact Hrange|].
  pose proof (removeTrack_other_keeps_current Sample.player 0 Sample.trackA
                eq_refl eq_refl eq_refl Hrange ltac:(simpl; lia))
    as (Hcurrent & Hcursor & _).
  exact (conj Hcurrent Hcursor).
Defined.

Lemma removeTrack_removes_the_id_witness :
  playlist (exec (removeTrack (track_id Sample.trackA)) Sample.player)
    = [Sample.trackB] ∧
  removeTrack (track_id Sample.trackA)
    (exec (removeTrack (track_id Sample.trackA)) Sample.player)
  = ((), exec (removeTrack (track_id Sample.trackA)) Sample.player).
Proof.
  pose proof (removeTrack_removes_the_id Sample.player 0 Sample.trackA
                eq_refl eq_refl eq_refl) as (Hlist & _ & _ & _ & Hagain).
  exact (conj Hlist Hagain).
Defined.

Lemma playback_keeps_list_and_store_witness :
  forallb is_playback Scenario.listening = true ∧
  playlist (run Scenario.listening Sample.player)
    = [Sample.trackA; Sample.trackB] ∧
  localStorage (run Scenario.listening Sample.player) = Sample.empty_storage.
Proof.
  split; [reflexivity|].
  exact (playback_keeps_list_and_store Scenario.listening Sample.player
           eq_refl).
Defined.

Lemma playTrack_outside_list_witness :
  playTrack 2 Sample.player = ((), Sample.player) ∧
  playTrack (-1) Sample.player = ((), Sample.player).
Proof.
  split.
  - apply (playTrack_outside_list Sample.player 2). right. simpl. lia.
  - apply (playTrack_outside_list Sample.player (-1)). left. lia.
Defined.

Lemma empty_playlist_controls_witness :
  playlist Sample.new_player = [] ∧
  togglePlay Sample.new_player = ((), Sample.new_player) ∧
  next 0.5%float Sample.new_player = ((), Sample.new_player).
Proof.
  split; [reflexivity|].
  pose proof (empty_playlist_controls Sample.new_player 0.5%float 0 eq_refl)
    as (Htoggle & Hnext & _).
  exact (conj Htoggle Hnext).
Defined.

Lemma cursor_never_dangles_witness :
  cursor_in_range Sample.new_player ∧
  cursor_in_range (run Scenario.session Sample.new_player).
Proof.
  assert (Hstart : cursor_in_range Sample.new_player) by (by left).
  split; [exact Hstart|].
  apply (cursor_never_dangles Sample.new_player Scenario.session Hstart).
Defined.

Lemma setVolume_percent_witness :
  JS.le (audio_volume (audio (exec (setVolume (JS.of_Z 30)) Sample.player)))
        (audio_volume (audio (exec (setVolume (JS.of_Z 70)) Sample.player)))
  = true ∧
  JS.le (audio_volume (audio (exec (setVolume (JS.of_Z 70)) Sample.player)))
        1%float = true.
Proof.
  pose proof (setVolume_percent Sample.player 30 70 ltac:(lia) ltac:(lia))
    as (_ & Hhigh & Hmono & _).
  exact (conj Hmono Hhigh).
Defined.

Lemma unknown_duration_witness :
  audio_duration (audio Sample.new_player) = PrimFloat.nan ∧
  seek 50%float Sample.new_player = ((), Sample.new_player).
Proof.
  split; [reflexivity|].
  apply (unknown_duration Sample.new_player 50%float). reflexivity.
Defined.

Lemma next_advances_witness :
  currentTrackIndex (exec (next 0.5%float) Scenario.on_first) = 1 ∧
  audio_src (audio (exec (next 0.5%float) Scenario.on_first))
    = Some "data:audio/ogg;base64,T2dnUw==".
Proof.
  destruct (next_advances 0.5%float Scenario.on_first eq_refl
              ltac:(simpl; lia) ltac:(simpl; lia))
    as (track & Htrack & Hcursor & Hsrc & _).
  injection Htrack as <-.
  exact (conj Hcursor Hsrc).
Defined.

Lemma ended_plays_through_witness :
  currentTrackIndex (ended_times 2 0.5%float Scenario.on_first) = -1 ∧
  emitted (ended_times 2 0.5%float Scenario.on_first)
    = [Etrackchange Sample.trackB 1; Estop].
Proof.
  pose proof (ended_plays_through 0.5%float Scenario.on_first 1 eq_refl
                ltac:(discriminate) ltac:(simpl; lia) eq_refl)
    as (_ & _ & Hnone & _).
  destruct (Hnone eq_refl) as (Hcursor & _ & Hevents).
  exact (conj Hcursor Hevents).
Defined.

Lemma ended_repeats_one_witness :
  currentTrackIndex
    (ended_times 3 0.5%float (with_repeat RepeatOne Sample.player)) = 1 ∧
  emitted (ended_times 3 0.5%float (with_repeat RepeatOne Sample.player)) = [].
Proof.
  pose proof (ended_repeats_one 0.5%float (with_repeat RepeatOne Sample.player)
                2 eq_refl) as (Hcursor & _ & Hevents & _).
  exact (conj Hcursor Hevents).
Defined.

Lemma pause_resume_keeps_track_witness :
  isPlaying Sample.player = true ∧
  currentTrackIndex
    (run [Call_togglePlay; On_pause; Call_togglePlay; On_play] Sample.player)
  = 1 ∧
  emitted
    (run [Call_togglePlay; On_pause; Call_togglePlay; On_play] Sample.player)
  = [Epause 1; Eplay 1].
Proof.
  split; [reflexivity|].
  pose proof (pause_resume_keeps_track Sample.player ltac:(discriminate)
                eq_refl ltac:(discriminate))
    as (Hcursor & _ & _ & _ & _ & _ & Hevents).
  exact (conj Hcursor Hevents).
Defined.

Lemma strip_extension_drops_the_extension_witness :
  strip_extension ("live.set" +:+ "." +:+ "ogg") = "live.set" ∧
  strip_extension "README" = "README".
Proof.
  apply (strip_extension_drops_the_extension "live.set" "ogg" "README");
    [discriminate|reflexivity|reflexivity].
Defined.

Lemma added_track_plays_from_its_source_witness :
  JS.truthy (file_path Sample.fileA) = true ∧
  audio_src
    (audio
       (exec (playTrack 2)
          (exec (addTrack_await
                   {| call_file := Sample.fileA;
                      call_now := 1700000000003%float;
                      call_rnd := 0.75%float;
                      call_read := ReadFailed Sample.read_error |})
             Sample.player)))
  = Some "/music/intro.mp3".
Proof.
  split; [reflexivity|].
  pose proof (added_track_plays_from_its_source
                {| call_file := Sample.fileA;
                   call_now := 1700000000003%float; call_rnd := 0.75%float;
                   call_read := ReadFailed Sample.read_error |}
                Sample.player _ eq_refl) as (_ & _ & Hpath & _).
  exact (Hpath eq_refl).
Defined.

Lemma isActive_marks_the_current_track_witness :
  isActive Sample.player Sample.trackB = true ∧
  isActive Sample.player Sample.trackA = false.
Proof.
  split.
  - apply (isActive_marks_the_current_track Sample.player 1 Sample.trackB
             Sample.trackB eq_refl eq_refl ltac:(simpl; lia) eq_refl eq_refl).
    reflexivity.
  - destruct (isActive Sample.player Sample.trackA) eqn:Hactive; [|done].
    apply (isActive_marks_the_current_track Sample.player 0 Sample.trackB
             Sample.trackA eq_refl eq_refl ltac:(simpl; lia) eq_refl eq_refl)
      in Hactive.
    discriminate Hactive.
Defined.

Lemma new_player_without_record_witness :
  getItem PLAYLIST_KEY Sample.empty_storage = None ∧
  MusicPlayer_new Sample.empty_storage = Some Sample.new_player.
Proof.
  split; [reflexivity|].
  apply (new_player_without_record Sample.empty_storage). by left.
Defined.

Lemma getCurrentTrack_follows_playTrack_witness :
  result getCurrentTrack (exec (playTrack 0) Sample.player)
    = Some Sample.trackA ∧
  result getCurrentTrack (exec stop (exec (playTrack 0) Sample.player)) = None.
Proof.
  pose proof (getCurrentTrack_follows_playTrack Sample.player 0
                ltac:(simpl; lia)) as (Hcurrent & _ & Hstopped).
  exact (conj Hcurrent Hstopped).
Defined.

Lemma audio_extension_passes_type_check_witness :
  upload_type Scenario.capital_extension = "" ∧
  wrong_type Scenario.capital_extension = false.
Proof.
  split; [reflexivity|].
  apply (audio_extension_passes_type_check Scenario.capital_extension
           "Intro" ".MP3" eq_refl eq_refl).
  left.
Defined.

Lemma togglePlay_starts_the_first_track_witness :
  currentTrackIndex Scenario.idle = -1 ∧
  currentTrackIndex (exec togglePlay Scenario.idle) = 0 ∧
  emitted (exec togglePlay Scenario.idle) = [Etrackchange Sample.trackA 0].
Proof.
  split; [reflexivity|].
  destruct (togglePlay_starts_the_first_track Scenario.idle
              ltac:(discriminate) eq_refl eq_refl)
    as (first & Hfirst & Hcursor & _ & _ & Hevents).
  injection Hfirst as <-.
  exact (conj Hcursor Hevents).
Defined.

Lemma previous_rewinds_or_steps_back_witness :
  JS.gt (audio_currentTime (audio Scenario.ten_seconds_in)) 3%float = true ∧
  currentTrackIndex (exec previous Scenario.ten_seconds_in) = 1 ∧
  audio_currentTime (audio (exec previous Scenario.ten_seconds_in)) = 0%float ∧
  currentTrackIndex (exec previous Sample.player) = 0.
Proof.
  split; [reflexivity|].
  assert (Hrange : ∀ q : Player, playlist q = [Sample.trackA; Sample.trackB] →
            currentTrackIndex q = 1 → cursor_in_range q).
  { intros q Hq Hc. right. rewrite Hq, Hc. simpl. lia. }
  destruct (previous_rewinds_or_steps_back Scenario.ten_seconds_in
              ltac:(discriminate)
              (Hrange Scenario.ten_seconds_in eq_refl eq_refl))
    as [Hrewind _].
  rewrite (Hrewind eq_refl).
  destruct (previous_rewinds_or_steps_back Sample.player
              ltac:(discriminate) (Hrange Sample.player eq_refl eq_refl))
    as [_ Hback].
  destruct (Hback eq_refl ltac:(simpl; lia)) as (before & _ & Hcursor & _).
  split; [reflexivity|]. split; [reflexivity|]. exact Hcursor.
Defined.

End MoreConcrete.

Lemma emit_in_subscription_order_witness :
  Emitter.inherited "trackchange" = false ∧
  ∃ subscribed,
    Emitter.on_each "trackchange"
      [(λ (d : Z) (s : list Z), s ++ [d]); (λ d s, s ++ [d + 1])] ∅
    = Some subscribed ∧
    Emitter.emit "trackchange" 7 subscribed [] = Some [7; 8].
Proof.
  split; [reflexivity|].
  destruct (emit_in_subscription_order "trackchange" 7
              [(λ (d : Z) (s : list Z), s ++ [d]); (λ d s, s ++ [d + 1])]
              ∅ [] eq_refl)
    as [(subscribed & before & Hsub & Hbefore & Hemit & _) _].
  exists subscribed. split; [exact Hsub|].
  injection Hbefore as <-. exact Hemit.
Defined.
